(** * python_monad: a shallow embedding of the monad hierarchy and of DictTree

    The Python objects of the library live in a store (a finite map from
    locations to objects); methods are computations in a state-and-exception
    monad over that store.  Loops that Python runs until a condition fails
    (the [while] of [root] and of [_flatten_cls]) take a fuel argument and
    answer [OutOfFuel] when it runs out. *)

From Stdlib Require Import ZArith String Ascii.
From stdpp Require Import base option list gmap strings fin_maps.

Set Warnings "-register-all".

Open Scope string_scope.

(** ** Exceptions and the computation monad *)

Inductive exn :=
| KeyError (msg : string)
| ValueError (msg : string)
| TypeError (msg : string)
| AttributeError (msg : string)
| IndexError (msg : string).

Inductive res (A : Type) :=
| Ok (a : A)
| Raise (e : exn)
| OutOfFuel.
Arguments Ok {A} a.
Arguments Raise {A} e.
Arguments OutOfFuel {A}.

(** A computation reads and writes the store [St]; the store it leaves
    behind is kept when an exception is raised, as in Python. *)
Definition M (St A : Type) : Type := St -> res A * St.

#[global] Instance M_ret St : MRet (M St) := fun A a s => (Ok a, s).
#[global] Instance M_bind St : MBind (M St) := fun A B f m s =>
  match m s with
  | (Ok a, s') => f a s'
  | (Raise e, s') => (Raise e, s')
  | (OutOfFuel, s') => (OutOfFuel, s')
  end.
#[global] Instance M_fmap St : FMap (M St) := fun A B f m s =>
  match m s with
  | (Ok a, s') => (Ok (f a), s')
  | (Raise e, s') => (Raise e, s')
  | (OutOfFuel, s') => (OutOfFuel, s')
  end.

Definition raise {St A} (e : exn) : M St A := fun s => (Raise e, s).
Definition out_of_fuel {St A} : M St A := fun s => (OutOfFuel, s).
Definition modify {St} (f : St -> St) : M St unit := fun s => (Ok tt, f s).

(** ** pathlib.PurePosixPath, as far as DictTree uses it *)

Module PosixPath.

(** A parsed path: [root] is [""], ["/"] or ["//"]; [names] are the
    components after the root. *)
Record t := mk { root : string; names : list string }.

(** [s.split("/")] *)
Fixpoint split (s : string) : list string :=
  match s with
  | EmptyString => [EmptyString]
  | String c s' =>
      if Ascii.eqb c "/" then EmptyString :: split s'
      else match split s' with
           | x :: xs => String c x :: xs
           | [] => [String c EmptyString]
           end
  end.

(** [s.lstrip("/")] *)
Fixpoint lstrip (s : string) : string :=
  match s with
  | String c s' => if Ascii.eqb c "/" then lstrip s' else s
  | EmptyString => EmptyString
  end.

(** The POSIX flavour's [splitroot]: exactly two leading slashes are kept,
    any other positive number collapses to one. *)
Definition splitroot (part : string) : string * string :=
  match part with
  | String c _ =>
      if Ascii.eqb c "/" then
        let stripped := lstrip part in
        if Nat.eqb (String.length part - String.length stripped) 2
        then ("//", stripped) else ("/", stripped)
      else ("", part)
  | EmptyString => ("", part)
  end.

Definition keep_component (x : string) : bool :=
  negb (String.eqb x "") && negb (String.eqb x ".").

Definition parse_arg (part : string) : t :=
  let '(r, rel) := splitroot part in
  mk r (List.filter keep_component (split rel)).

(** Joining two parsed paths: an absolute right operand wins. *)
Definition join (p q : t) : t :=
  if String.eqb (root q) "" then mk (root p) (names p ++ names q) else q.

Definition empty : t := mk "" [].

(** [parse_parts]: the arguments are joined from left to right. *)
Definition parse_parts (args : list string) : t :=
  List.fold_left (fun acc a => join acc (parse_arg a)) args empty.

Definition PurePosixPath (s : string) : t := parse_parts [s].

(** [joinpath] called on the empty path [PurePosixPath('')] *)
Definition joinpath (args : list string) : t := parse_parts args.

Definition is_absolute (p : t) : bool := negb (String.eqb (root p) "").

Definition parts (p : t) : list string :=
  if is_absolute p then root p :: names p else names p.

Definition parent (p : t) : t := mk (root p) (List.removelast (names p)).

Definition name (p : t) : string := List.last (names p) "".

Definition to_string (p : t) : string :=
  let s := root p ++ String.concat "/" (names p) in
  if String.eqb s "" then "." else s.

Definition pardir : string := "..".

Fixpoint has_sep (s : string) : bool :=
  match s with
  | EmptyString => false
  | String c s' => Ascii.eqb c "/" || has_sep s'
  end.

(** A name as parsing leaves it: not empty, not ["."], without ["/"]. *)
Definition clean (x : string) : bool :=
  keep_component x && negb (has_sep x).

Definition wf_path (p : t) : Prop :=
  (root p = "" \/ root p = "/" \/ root p = "//")
  /\ Forall (fun x => clean x = true) (names p).

End PosixPath.

(** ** dict_tree.py *)

Module DictTree.

Definition loc := nat.

(** What a key of a DictTree can hold: [None], an opaque leaf (an int or a
    str here) or a reference to another DictTree. *)
Inductive val :=
| VNone
| VInt (z : Z)
| VStr (s : string)
| VTree (l : loc).

(** A DictTree object: the attribute [_parent] and the dict contents. *)
Record node := Node { _parent : option loc; items : gmap string val }.

#[global] Instance node_inhabited : Inhabited node := populate (Node None ∅).

Abbreviation heap := (gmap loc node).

Definition get_node (l : loc) : M heap node := fun h => (Ok (h !!! l), h).

Definition alloc (n : node) : M heap loc :=
  fun h => let l := fresh (dom h) in (Ok l, <[l := n]> h).

(** The property [parent]. *)
Definition parent (self : loc) : M heap val :=
  n ← get_node self;
  mret (match _parent n with Some p => VTree p | None => VNone end).

(** [root]: [while root.parent is not root and root.parent is not None]. *)
Fixpoint root (fuel : nat) (self : loc) : M heap loc :=
  match fuel with
  | O => out_of_fuel
  | S k =>
      p ← parent self;
      match p with
      | VTree p' => if decide (p' = self) then mret self else root k p'
      | _ => mret self
      end
  end.

(** [dict.get(key, None)] *)
Definition get (self : loc) (key : string) : M heap val :=
  n ← get_node self;
  mret (default VNone (items n !! key)).

(** [__setitem__]: a tree value gets its [_parent] rewired first. *)
Definition setitem (self : loc) (key : string) (value : val) : M heap unit :=
  match value with
  | VTree c => modify (fun h => <[c := Node (Some self) (items (h !!! c))]> h)
  | _ => mret tt
  end;;
  modify (fun h => <[self := Node (_parent (h !!! self))
                                (<[key := value]> (items (h !!! self)))]> h).

(** [attach]: the child is built from the keyword arguments, then stored
    through [__setitem__]. *)
Definition attach (self : loc) (key : string) (kwargs : gmap string val)
  : M heap loc :=
  child ← alloc (Node None kwargs);
  setitem self key (VTree child);;
  mret child.

Definition missing_child_msg (path : PosixPath.t) (i : nat) (part : string)
  : string :=
  "Child node at path "
    ++ PosixPath.to_string (PosixPath.joinpath (take i (PosixPath.parts path)))
    ++ " has no child with key " ++ part.

Definition leaf_msg (path : PosixPath.t) (i : nat) : string :=
  "Node at path "
    ++ PosixPath.to_string
         (PosixPath.joinpath (take (i + 1) (PosixPath.parts path)))
    ++ " is a leaf".

(** One round of the [for] loop of [_walk_path], up to its [yield]: the
    node reached from [node] through [part], the [i]-th part. *)
Definition walk_step (path : PosixPath.t) (ensure_exists : bool)
    (leaf_node_factory : option (M heap val)) (i : nat) (part : string)
    (node : val) : M heap val :=
  match node with
  | VNone =>
      if ensure_exists then
        match leaf_node_factory with
        | Some factory =>
            if decide (i = length (PosixPath.parts path) - 1) then
              _ ← factory;
              raise (TypeError "'NoneType' object does not support item assignment")
            else raise (AttributeError "'NoneType' object has no attribute 'attach'")
        | None => raise (AttributeError "'NoneType' object has no attribute 'attach'")
        end
      else raise (KeyError (missing_child_msg path i part))
  | VInt _ | VStr _ => raise (ValueError (leaf_msg path i))
  | VTree l =>
      if decide (part = PosixPath.pardir) then parent l else get l part
  end.

(** The [for] loop over [enumerate(path.parts)], from index [i] on; the
    result lists what the generator yields. *)
Fixpoint walk_parts (path : PosixPath.t) (ensure_exists : bool)
    (leaf_node_factory : option (M heap val)) (i : nat) (ps : list string)
    (node : val) : M heap (list val) :=
  match ps with
  | [] => mret []
  | part :: rest =>
      if decide (part = PosixPath.root path) then
        walk_parts path ensure_exists leaf_node_factory (S i) rest node
      else
        node' ← walk_step path ensure_exists leaf_node_factory i part node;
        ys ← walk_parts path ensure_exists leaf_node_factory (S i) rest node';
        mret (node' :: ys)
  end.

(** [list(self._walk_path(path, ensure_exists, leaf_node_factory))] *)
Definition _walk_path (fuel : nat) (self : loc) (path : PosixPath.t)
    (ensure_exists : bool) (leaf_node_factory : option (M heap val))
  : M heap (list val) :=
  node ← (if PosixPath.is_absolute path then VTree <$> root fuel self
          else mret (VTree self));
  ys ← walk_parts path ensure_exists leaf_node_factory 0
          (PosixPath.parts path) node;
  mret (node :: ys).

(** [get_at_path]: the last value the walk yields.  The source calls
    [self._walk_path(path)] with the one argument, so [ensure_exists] is
    accepted and not passed on. *)
Definition get_at_path (fuel : nat) (self : loc) (path : PosixPath.t)
    (ensure_exists : bool) : M heap val :=
  ys ← _walk_path fuel self path false None;
  match last ys with
  | Some v => mret v
  | None => raise (IndexError "list index out of range")
  end.

(** [parent[path.name] = value] for whatever [parent] turned out to be. *)
Definition store_item (target : val) (key : string) (value : val)
  : M heap unit :=
  match target with
  | VTree p => setitem p key value
  | VNone =>
      raise (TypeError "'NoneType' object does not support item assignment")
  | VInt _ =>
      raise (TypeError "'int' object does not support item assignment")
  | VStr _ =>
      raise (TypeError "'str' object does not support item assignment")
  end.

(** [set_at_path]; it has no [return], so it answers [None]. *)
Definition set_at_path (fuel : nat) (self : loc) (path : string)
    (value : val) (ensure_parents_exist : bool) : M heap val :=
  let path := PosixPath.PurePosixPath path in
  parent ← get_at_path fuel self (PosixPath.parent path) ensure_parents_exist;
  store_item parent (PosixPath.name path) value;;
  mret VNone.

(** [insert_at]: the plain [dict.__setitem__], with the arguments flipped;
    no parent is rewired. *)
Definition insert_at (self : loc) (value : val) (key : string) : M heap val :=
  modify (fun h => <[self := Node (_parent (h !!! self))
                                (<[key := value]> (items (h !!! self)))]> h);;
  mret VNone.

(** The [for] loop of [up], for [range(n)]. *)
Fixpoint up_loop (n : nat) (node : loc) : M heap loc :=
  match n with
  | O => mret node
  | S k =>
      p ← parent node;
      match p with
      | VTree p' => if decide (p' = node) then mret node else up_loop k p'
      | _ => mret node
      end
  end.

(** [up]: a negative [num_levels] means the root. *)
Definition up (fuel : nat) (self : loc) (num_levels : Z) : M heap loc :=
  if (num_levels <? 0)%Z then root fuel self
  else up_loop (Z.to_nat num_levels) self.

(** The [for] loop of [down]: it returns as soon as a lookup gives [None] or
    something that is no tree. *)
Fixpoint down_loop (keys : list string) (node : loc) : M heap val :=
  match keys with
  | [] => mret (VTree node)
  | key :: rest =>
      v ← get node key;
      match v with
      | VTree l => down_loop rest l
      | _ => mret v
      end
  end.

Definition down (self : loc) (keys : list string) : M heap val :=
  down_loop keys self.

(** Every node that names a parent is a value of that parent. *)
Definition parent_consistent (h : heap) : Prop :=
  forall c p, _parent (h !!! c) = Some p ->
              exists k, items (h !!! p) !! k = Some (VTree c).

(** [root_at h t n r]: following [_parent] from [t] for [n] steps reaches
    [r], which has no parent or is its own parent, without meeting a node
    that is its own parent on the way. *)
Inductive root_at (h : heap) : loc -> nat -> loc -> Prop :=
| root_here r :
    _parent (h !!! r) = None \/ _parent (h !!! r) = Some r ->
    root_at h r 0 r
| root_up t p n r :
    _parent (h !!! t) = Some p -> p <> t ->
    root_at h p n r ->
    root_at h t (S n) r.

(** *** An example tree: a root with one leaf *)
Definition h_single : heap := {[ 0%nat := Node None {[ "k" := VInt 1 ]} ]}.

(** A root at 0 whose key ["a"] holds the tree at 1, whose key ["b"] holds
    the leaf 7; an empty root at 2. *)
Definition h_nested : heap :=
  {[ 0%nat := Node None {[ "a" := VTree 1 ]};
     1%nat := Node (Some 0%nat) {[ "b" := VInt 7 ]};
     2%nat := Node None ∅ ]}.

End DictTree.

(** ** monad/monad_base.py, monad/maybe.py, monad/state_monad.py *)

Module Monad.

Definition loc := nat.

(** The concrete monad classes.  [DictStateMonad] is the subclass of
    [ContextMonad] that fixes [ContextType = DictState]. *)
Inductive ctx_cls := ContextMonad | DictStateMonad.
Inductive cls := Maybe | Context (k : ctx_cls).

Definition issubclass (c d : cls) : bool :=
  match c, d with
  | Maybe, Maybe => true
  | Context _, Context ContextMonad => true
  | Context DictStateMonad, Context DictStateMonad => true
  | _, _ => false
  end.

(** Python values.  Immutable data and callables are values of their own;
    everything with identity and state is a reference into the store.
    The callables the library builds itself are kept as data: the closure
    [caller] of [call_with], the closure [composed] of [compose_unary],
    the bound methods [cls.unit] and [m.bind]. *)
Inductive val :=
| VNone
| VInt (z : Z)
| VStr (s : string)
| VSentinel                      (* the object [Maybe._Nothing] *)
| VFun (n : nat)                 (* the [n]-th function of the client *)
| VCallWith                      (* the function [call_with] *)
| VCaller (x : val)              (* [call_with(x)] *)
| VComposed (funcs : list val)   (* [compose_unary] of [funcs] *)
| VUnit (c : cls)                (* [cls.unit] *)
| VBind (self : loc)             (* [m.bind] *)
| VRef (l : loc).

(** Objects in the store: a plain [object()], a [Maybe], a context monad
    of class [k], a [dict] ([is_state = false]) or a [DictState]. *)
Inductive obj :=
| OObject
| OMaybe (_value : val)
| OContext (k : ctx_cls) (_value _state : val)
| ODict (is_state : bool) (d : gmap string val).

#[global] Instance obj_inhabited : Inhabited obj := populate OObject.

(** The store, and the log of the calls made to client functions. *)
Record store := Store { heap : gmap loc obj; calls : list (nat * val) }.

Definition class_of (o : obj) : option cls :=
  match o with
  | OMaybe _ => Some Maybe
  | OContext k _ _ => Some (Context k)
  | _ => None
  end.

(** The instance attributes of an object (its [__dict__]). *)
Definition field (o : obj) (name : string) : option val :=
  match o with
  | OMaybe v => if decide (name = "_value") then Some v else None
  | OContext _ v s =>
      if decide (name = "_value") then Some v
      else if decide (name = "_state") then Some s else None
  | _ => None
  end.

Definition set_field (o : obj) (name : string) (x : val) : option obj :=
  match o with
  | OMaybe v => if decide (name = "_value") then Some (OMaybe x) else None
  | OContext k v s =>
      if decide (name = "_value") then Some (OContext k x s)
      else if decide (name = "_state") then Some (OContext k v x) else None
  | _ => None
  end.

Definition is_sentinel (v : val) : bool :=
  match v with VSentinel => true | _ => false end.

Definition deref (l : loc) : M store obj := fun st => (Ok (heap st !!! l), st).

(** The store with object [o] at [l]. *)
Definition upd (l : loc) (o : obj) (st : store) : store :=
  Store (<[l := o]> (heap st)) (calls st).

Definition new (o : obj) : M store val :=
  fun st => let l := fresh (dom (heap st)) in (Ok (VRef l), upd l o st).

(** Reading an instance attribute that is no property. *)
Definition get_field (l : loc) (name : string) : M store val :=
  o ← deref l;
  match field o name with
  | Some v => mret v
  | None => raise (AttributeError name)
  end.

(** Assignment to [_value] or [_state] of a monad instance. *)
Definition setattr (l : loc) (name : string) (x : val) : M store unit :=
  o ← deref l;
  match set_field o name x with
  | Some o' => modify (upd l o')
  | None => raise (AttributeError name)
  end.

(** [isinstance(v, c)], answering the location of the instance. *)
Definition instance_of (v : val) (c : cls) : M store (option loc) :=
  match v with
  | VRef l =>
      o ← deref l;
      match class_of o with
      | Some d => mret (if issubclass d c then Some l else None)
      | None => mret None
      end
  | _ => mret None
  end.

(** The receiver of a method call: a monad instance, or no such method. *)
Definition as_monad (v : val) (method : string) : M store (loc * cls) :=
  match v with
  | VRef l =>
      o ← deref l;
      match class_of o with
      | Some c => mret (l, c)
      | None => raise (AttributeError method)
      end
  | _ => raise (AttributeError method)
  end.

(** [copy.copy]: atomic values and functions are returned as they are; an
    instance is rebuilt with the same attributes; a bare [object()] is
    rebuilt too, so the copy of the sentinel is a new object. *)
Definition copy_copy (v : val) : M store val :=
  match v with
  | VSentinel => new OObject
  | VRef l => o ← deref l; new o
  | _ => mret v
  end.

(** [a + b] (also what [a += b] computes, none of the types below having
    [__iadd__]): ints, strs, and [DictState.__add__], which is
    [dict.__or__] and builds a new plain dict. *)
Definition add (a b : val) : M store val :=
  match a, b with
  | VInt x, VInt y => mret (VInt (x + y))
  | VStr x, VStr y => mret (VStr (x ++ y))
  | VRef la, VRef lb =>
      oa ← deref la;
      ob ← deref lb;
      match oa, ob with
      | ODict true d1, ODict _ d2 => new (ODict false (d2 ∪ d1))
      | _, _ => raise (TypeError "unsupported operand type(s) for +")
      end
  | _, _ => raise (TypeError "unsupported operand type(s) for +")
  end.

(** [functools.reduce(f, xs, init)] *)
Fixpoint reduce {A B} (f : B -> A -> M store B) (xs : list A) (init : B)
  : M store B :=
  match xs with
  | [] => mret init
  | x :: xs' => r ← f init x; reduce f xs' r
  end.

Section Library.

(** The functions of the client: [client n x h] is what the [n]-th one
    returns (or raises) on [x] from the store [h], and the store it
    leaves. *)
Variable client : nat -> val -> gmap loc obj -> res val * gmap loc obj.

(** Bound on the rounds of a [while] loop. *)
Variable fuel : nat.

Definition call_client (n : nat) (x : val) : M store val :=
  fun st => let '(r, h) := client n x (heap st) in
            (r, Store h (calls st ++ [(n, x)])).

(** *** Maybe *)

Definition Maybe_is_nothing (self : loc) : M store bool :=
  v ← get_field self "_value";
  mret (is_sentinel v).

Fixpoint Maybe__flatten_cls_loop (n : nat) (instance : loc) : M store unit :=
  match n with
  | O => out_of_fuel
  | S n' =>
      value ← get_field instance "_value";
      i ← instance_of value Maybe;
      match i with
      | Some lv =>
          v ← get_field lv "_value";
          setattr instance "_value" v;;
          Maybe__flatten_cls_loop n' instance
      | None => mret tt
      end
  end.

Definition Maybe__flatten_cls (instance : loc) : M store unit :=
  Maybe__flatten_cls_loop fuel instance.

(** *** ContextMonad *)

Fixpoint Context__flatten_cls_loop (n : nat) (c : cls) (instance : loc)
  : M store unit :=
  match n with
  | O => out_of_fuel
  | S n' =>
      value ← get_field instance "_value";
      i ← instance_of value c;
      match i with
      | Some lv =>
          v ← get_field lv "_value";
          setattr instance "_value" v;;
          s ← get_field instance "_state";
          s' ← get_field lv "_state";
          r ← add s s';
          setattr instance "_state" r;;
          Context__flatten_cls_loop n' c instance
      | None => mret tt
      end
  end.

Definition Context__flatten_cls (k : ctx_cls) (instance : loc)
  : M store unit :=
  Context__flatten_cls_loop fuel (Context k) instance.

(** [cls(value, cls.ContextType.zero())]: [ContextMonad] declares
    [ContextType] without binding it; for [DictStateMonad] the class
    property [DictState.zero] already answers a new [DictState], which
    the source then calls. *)
Definition Context_unit (k : ctx_cls) (value : val) : M store val :=
  match k with
  | ContextMonad => raise (AttributeError "ContextType")
  | DictStateMonad =>
      _ ← new (ODict true ∅);
      raise (TypeError "'DictState' object is not callable")
  end.

(** *** Monad *)

Definition _flatten_cls (c : cls) (instance : loc) : M store unit :=
  match c with
  | Maybe => Maybe__flatten_cls instance
  | Context k => Context__flatten_cls k instance
  end.

(** [flatten]: [self.__class__._flatten_cls(self); return self] *)
Definition flatten (self : loc) : M store val :=
  '(_, c) ← as_monad (VRef self) "flatten";
  _flatten_cls c self;;
  mret (VRef self).

Definition flattened (c : cls) (instance : loc) : M store val :=
  result ← copy_copy (VRef instance);
  match result with
  | VRef r => _flatten_cls c r;; mret result
  | _ => raise (AttributeError "_value")
  end.

Definition Maybe_unit (value : val) : M store val :=
  i ← instance_of value Maybe;
  match i with
  | Some lv =>
      v ← get_field lv "_value";
      c ← copy_copy v;
      m ← new (OMaybe c);
      match m with
      | VRef lm => flatten lm
      | _ => raise (AttributeError "flatten")
      end
  | None => new (OMaybe value)
  end.

Definition Maybe_Nothing : M store val := Maybe_unit VSentinel.

(** The property [Maybe.value]. *)
Definition Maybe_value (self : loc) : M store val :=
  b ← Maybe_is_nothing self;
  if negb b then get_field self "_value" else Maybe_Nothing.

(** [Just(val)] is [Maybe(val)]. *)
Definition Just (v : val) : M store val := new (OMaybe v).

(** [Nothing()] *)
Definition Nothing : M store val := Maybe_Nothing.

(** Attribute access [instance.name]: an instance attribute, or the
    property [value] of [Maybe]. *)
Definition getattr (l : loc) (name : string) : M store val :=
  o ← deref l;
  match field o name with
  | Some v => mret v
  | None =>
      match o with
      | OMaybe _ =>
          if decide (name = "value") then Maybe_value l
          else raise (AttributeError name)
      | _ => raise (AttributeError name)
      end
  end.

Definition unit (c : cls) (value : val) : M store val :=
  match c with
  | Maybe => Maybe_unit value
  | Context k => Context_unit k value
  end.

Section WithCall.

(** How a callable is invoked; the knot is tied in [call] below. *)
Variable call : val -> val -> M store val.

Definition Maybe__fmap_cls (func : val) (instance : loc) : M store val :=
  b ← Maybe_is_nothing instance;
  if (b : bool) then Maybe_Nothing
  else
    v ← getattr instance "value";
    r ← call func v;
    new (OMaybe r).

Definition Context__fmap_cls (k : ctx_cls) (func : val) (instance : loc)
  : M store val :=
  v ← getattr instance "value";
  r ← call func v;
  s ← getattr instance "state";
  new (OContext k r s).

(** [fmap]: [self._fmap_cls(func, self)] *)
Definition fmap_with (self : loc) (func : val) : M store val :=
  '(_, c) ← as_monad (VRef self) "fmap";
  match c with
  | Maybe => Maybe__fmap_cls func self
  | Context k => Context__fmap_cls k func self
  end.

Definition bind_with (self : loc) (func : val) : M store val :=
  result ← fmap_with self func;
  '(_, c) ← as_monad (VRef self) "__class__";
  match result with
  | VRef r => _flatten_cls c r;; mret result
  | _ => raise (AttributeError "_value")
  end.

End WithCall.

(** Calling a value, [depth] bounding the nesting of calls. *)
Fixpoint call (depth : nat) (f x : val) : M store val :=
  match depth with
  | O => out_of_fuel
  | S d =>
      match f with
      | VFun n => call_client n x
      | VCallWith => mret (VCaller x)
      | VCaller a => call d x a
      | VComposed funcs =>
          reduce (fun res fn => call d fn res) (rev funcs) x
      | VUnit c => unit c x
      | VBind self => bind_with (call d) self x
      | VRef l =>
          o ← deref l;
          match o with
          | OMaybe _ => raise (TypeError "'Maybe' object is not callable")
          | OContext _ _ _ =>
              raise (TypeError "'ContextMonad' object is not callable")
          | ODict _ _ => raise (TypeError "'dict' object is not callable")
          | OObject => raise (TypeError "'object' object is not callable")
          end
      | VNone => raise (TypeError "'NoneType' object is not callable")
      | VInt _ => raise (TypeError "'int' object is not callable")
      | VStr _ => raise (TypeError "'str' object is not callable")
      | VSentinel => raise (TypeError "'object' object is not callable")
      end
  end.

Variable depth : nat.

Definition fmap (self : loc) (func : val) : M store val :=
  fmap_with (call depth) self func.

Definition bind (self : loc) (func : val) : M store val :=
  bind_with (call depth) self func.

(** [call_with(x)] and [compose_unary] of [funcs] *)
Definition call_with (x : val) : val := VCaller x.
Definition compose_unary (funcs : list val) : val := VComposed funcs.

(** [apply]: the receiver's [fmap] is looked up first, then the
    arguments are built, [monad_function.bind] among them. *)
Definition apply (c : cls) (monad_function monad_instance : val)
  : M store val :=
  '(inst, _) ← as_monad monad_instance "fmap";
  '(mf, _) ← as_monad monad_function "bind";
  r ← fmap inst
        (compose_unary [VBind mf; compose_unary [VUnit c; VCallWith]]);
  '(rl, _) ← as_monad r "flatten";
  flatten rl.

End Library.

(** *** Nesting, for the statements about [flatten]

    [not_instance h c w]: [isinstance(w, c)] is false in [h], and stays
    false when [h] grows. *)
Definition not_instance (h : gmap loc obj) (c : cls) (w : val) : Prop :=
  match w with
  | VRef l =>
      exists o, h !! l = Some o /\
        match class_of o with
        | Some d => issubclass d c = false
        | None => True
        end
  | _ => True
  end.

(** [nest h c v ls w]: from [v], the instances of [c] at [ls] are nested
    one in the next through [_value], and the innermost payload [w] is no
    instance of [c]. *)
Inductive nest (h : gmap loc obj) (c : cls) : val -> list loc -> val -> Prop :=
| nest_nil w :
    not_instance h c w -> nest h c w [] w
| nest_cons l o d v ls w :
    h !! l = Some o ->
    class_of o = Some d ->
    issubclass d c = true ->
    field o "_value" = Some v ->
    nest h c v ls w ->
    nest h c (VRef l) (l :: ls) w.

(** The [_state] attributes of the objects at [ls]. *)
Definition states (h : gmap loc obj) (ls : list loc) : list val :=
  omap (fun l => field (h !!! l) "_state") ls.

(** An instance once flattened: payload [w], state [r] where there is
    one. *)
Definition flat (o : obj) (w r : val) : obj :=
  match o with
  | OMaybe _ => OMaybe w
  | OContext k _ _ => OContext k w r
  | _ => o
  end.

(** [extends st st']: [st'] has every object of [st] as it was, and the
    same log of calls. *)
Definition extends (st st' : store) : Prop :=
  calls st' = calls st
  /\ forall l o, heap st !! l = Some o -> heap st' !! l = Some o.

(** The sum of the states met while flattening [o] through the layers
    [ls], outermost first; [None] where [o] carries no state. *)
Definition accumulated (o : obj) (ls : list loc) : M store val :=
  fun st =>
    match o with
    | OContext _ _ s => reduce add (states (heap st) ls) s st
    | _ => (Ok VNone, st)
    end.

(** The class property [DictState.zero]: [cls()]. *)
Definition DictState_zero : M store val := new (ODict true ∅).

(** *** Example inputs *)

(** A client whose functions all are [lambda x: x + 1]. *)
Definition client_succ (n : nat) (x : val) (h : gmap loc obj)
  : res val * gmap loc obj :=
  match x with
  | VInt z => (Ok (VInt (z + 1)), h)
  | _ => (Raise (TypeError "unsupported operand type(s) for +"), h)
  end.

(** [a = Just(5)] at 0 and [Just(a)] at 1. *)
Definition st_maybe : store :=
  Store {[ 0%nat := OMaybe (VInt 5); 1%nat := OMaybe (VRef 0) ]} [].

(** [Just(f)] at 0 for a client function [f], [Just(5)] at 1. *)
Definition st_apply : store :=
  Store {[ 0%nat := OMaybe (VFun 0); 1%nat := OMaybe (VInt 5) ]} [].

(** [Nothing()] at 0. *)
Definition st_nothing : store := Store {[ 0%nat := OMaybe VSentinel ]} [].

Definition d_outer : gmap string val := {[ "a" := VInt 1; "k" := VInt 0 ]}.
Definition d_inner : gmap string val := {[ "b" := VInt 2; "k" := VInt 9 ]}.

(** The states [DictState(a=1, k=0)] at 0 and [DictState(b=2, k=9)] at 1,
    [inner = DictStateMonad(7, ...)] at 2 with the second,
    [DictStateMonad(inner, ...)] at 3 with the first. *)
Definition st_ctx : store :=
  Store {[ 0%nat := ODict true d_outer;
           1%nat := ODict true d_inner;
           2%nat := OContext DictStateMonad (VInt 7) (VRef 1);
           3%nat := OContext DictStateMonad (VRef 2) (VRef 0) ]} [].

(** Three layers: [DictStateMonad(m, DictState(c=3))] at 5, around the
    instance at 3 of [st_ctx]. *)
Definition st_ctx3 : store :=
  Store (<[ 5%nat := OContext DictStateMonad (VRef 3) (VRef 4) ]>
           (<[ 4%nat := ODict true {[ "c" := VInt 3 ]} ]> (heap st_ctx))) [].

End Monad.

(** * Properties *)

(** ** The computation monad *)

Section MonadFacts.
Context {St A B : Type}.
Implicit Types (m : M St A) (f : A -> M St B).

Lemma bind_ok m f s a s' :
  m s = (Ok a, s') -> (m ≫= f) s = f a s'.
Proof. intros E. unfold mbind, M_bind. now rewrite E. Qed.

Lemma bind_raise m f s e s' :
  m s = (Raise e, s') -> (m ≫= f) s = (Raise e, s').
Proof. intros E. unfold mbind, M_bind. now rewrite E. Qed.

Lemma bind_inv_ok m f s b s2 :
  (m ≫= f) s = (Ok b, s2) ->
  exists a s1, m s = (Ok a, s1) /\ f a s1 = (Ok b, s2).
Proof.
  unfold mbind, M_bind. destruct (m s) as [[a | e |] s1]; intros E.
  - now exists a, s1.
  - discriminate.
  - discriminate.
Qed.

End MonadFacts.

(** Running the monadic plumbing of a goal. *)
Ltac mrun :=
  repeat (progress (cbv beta iota delta
            [mbind M_bind mret M_ret fmap M_fmap raise out_of_fuel modify]; cbn)).

(** The same, deciding the comparisons of literals on the way. *)
Ltac mgo :=
  repeat first [ progress mrun
               | rewrite decide_True by done
               | rewrite decide_False by done ].

(** One step of a sequence whose first computation is known to succeed. *)
Tactic Notation "mok" "by" tactic3(t) :=
  erewrite bind_ok by t; cbv beta iota.

(** ** DictTree *)

Module DictTreeSpec.
Import DictTree.

Implicit Types (h : heap) (path : PosixPath.t).

(** Looking things up never changes the store. *)
Lemma parent_eq self h :
  parent self h =
    (Ok (match _parent (h !!! self) with Some p => VTree p | None => VNone end), h).
Proof. reflexivity. Qed.

Lemma get_eq self key h :
  get self key h = (Ok (default VNone (items (h !!! self) !! key)), h).
Proof. reflexivity. Qed.

Lemma root_heap fuel : forall self h, (root fuel self h).2 = h.
Proof.
  induction fuel as [| k IH]; intros self h; [reflexivity |].
  cbn [root]. erewrite bind_ok by apply parent_eq.
  destruct (_parent (h !!! self)) as [p |]; [| reflexivity].
  destruct (decide (p = self)); [reflexivity | apply IH].
Qed.

(** With fuel beyond the length of the parent chain, [root] finds its
    end. *)
Lemma root_spec h t n r :
  root_at h t n r -> forall fuel, n < fuel -> root fuel t h = (Ok r, h).
Proof.
  induction 1 as [r Hr | t p n r Hp Hne _ IH]; intros fuel Hlt;
    (destruct fuel as [| k]; [lia |]); cbn [root];
    erewrite bind_ok by apply parent_eq.
  - destruct Hr as [-> | ->]; [reflexivity |]. now rewrite decide_True.
  - rewrite Hp, decide_False by exact Hne. apply IH. lia.
Qed.



(** *** Paths whose components are proper names *)

Lemma split_no_sep x : PosixPath.has_sep x = false -> PosixPath.split x = [x].
Proof.
  induction x as [| c x IH]; [reflexivity |]. cbn.
  destruct (Ascii.eqb c "/"); [discriminate |]. cbn.
  intros H. now rewrite IH.
Qed.

Lemma parse_arg_clean x :
  PosixPath.clean x = true -> PosixPath.parse_arg x = PosixPath.mk "" [x].
Proof.
  unfold PosixPath.clean. intros [Hk Hs]%andb_prop. apply negb_true_iff in Hs.
  unfold PosixPath.parse_arg, PosixPath.splitroot.
  destruct x as [| c x]; [discriminate |].
  cbn in Hs. destruct (Ascii.eqb c "/") eqn:Ec; [discriminate |].
  rewrite split_no_sep by (cbn; now rewrite Ec).
  cbn [List.filter]. now rewrite Hk.
Qed.

Lemma clean_not_root x rt :
  PosixPath.clean x = true -> rt = "" \/ rt = "/" \/ rt = "//" -> x <> rt.
Proof.
  intros Hc Hr ->. destruct Hr as [-> | [-> | ->]]; discriminate.
Qed.

Lemma fold_join_clean ns : forall acc,
  Forall (fun x => PosixPath.clean x = true) ns ->
  List.fold_left (fun a x => PosixPath.join a (PosixPath.parse_arg x)) ns acc
    = PosixPath.mk (PosixPath.root acc) (PosixPath.names acc ++ ns).
Proof.
  induction ns as [| n ns IH]; intros acc Hf.
  - cbn. rewrite app_nil_r. now destruct acc.
  - inversion Hf as [| ? ? Hn Hns]; subst. cbn [List.fold_left].
    rewrite IH by assumption. rewrite parse_arg_clean by assumption.
    unfold PosixPath.join. cbn. now rewrite <- app_assoc.
Qed.

(** Joining the parts of a well-formed path gives the path back. *)
Lemma joinpath_parts p : PosixPath.wf_path p -> PosixPath.joinpath (PosixPath.parts p) = p.
Proof.
  destruct p as [rt ns]. intros [Hr Hn]. cbn in Hr, Hn.
  unfold PosixPath.joinpath, PosixPath.parse_parts, PosixPath.parts.
  destruct Hr as [-> | [-> | ->]]; cbn [PosixPath.is_absolute PosixPath.root
    PosixPath.names String.eqb negb Ascii.eqb]; cbn [List.fold_left].
  - now rewrite fold_join_clean.
  - change (PosixPath.join PosixPath.empty (PosixPath.parse_arg "/"))
      with (PosixPath.mk "/" []).
    now rewrite fold_join_clean.
  - change (PosixPath.join PosixPath.empty (PosixPath.parse_arg "//"))
      with (PosixPath.mk "//" []).
    now rewrite fold_join_clean.
Qed.

(** *** The walk without creation *)

(** A successful step leaves the store alone and does not depend on the
    path (which only appears in error messages). *)
Lemma walk_step_ok p q i j part node h v h' :
  walk_step p false None i part node h = (Ok v, h') ->
  h' = h /\ walk_step q false None j part node h = (Ok v, h).
Proof.
  destruct node as [| z | s | l]; cbn; try discriminate.
  destruct (decide (part = PosixPath.pardir)).
  - rewrite parent_eq. intros [= <- <-]. now split.
  - rewrite get_eq. intros [= <- <-]. now split.
Qed.

Lemma walk_parts_ok p q ps : forall i j node h ys h',
  PosixPath.root p = PosixPath.root q ->
  walk_parts p false None i ps node h = (Ok ys, h') ->
  h' = h /\ walk_parts q false None j ps node h = (Ok ys, h).
Proof.
  induction ps as [| part ps IH]; intros i j node h ys h' Hr; cbn [walk_parts].
  - intros [= <- <-]. now split.
  - rewrite <- Hr. destruct (decide (part = PosixPath.root p)).
    + apply IH, Hr.
    + intros (v & h1 & Hs & Hk)%bind_inv_ok.
      apply (walk_step_ok p q i j) in Hs as [-> Hs].
      apply bind_inv_ok in Hk as (zs & h2 & Hw & Hk).
      apply (IH (S i) (S j)) in Hw as [-> Hw]; [| exact Hr].
      injection Hk as <- <-. split; [reflexivity |].
      erewrite bind_ok by exact Hs. erewrite bind_ok by exact Hw. reflexivity.
Qed.

Lemma last_cons_shift (x d : val) xs : List.last (x :: xs) d = List.last xs x.
Proof.
  revert x d. induction xs as [| y ys IH]; intros x d; [reflexivity |].
  change (List.last (x :: y :: ys) d) with (List.last (y :: ys) d).
  now rewrite !IH.
Qed.

(** Walking [ps1 ++ ps2] is walking [ps1], then [ps2] from where that
    ended. *)
Lemma walk_parts_app p ps1 ps2 : forall i node h ys,
  walk_parts p false None i ps1 node h = (Ok ys, h) ->
  walk_parts p false None i (ps1 ++ ps2) node h
  = (zs ← walk_parts p false None (i + length ps1) ps2 (List.last ys node);
     mret (ys ++ zs)%list) h.
Proof.
  induction ps1 as [| part ps1 IH]; intros i node h ys; cbn [walk_parts app].
  - intros [= <-]. cbn [List.last length]. rewrite Nat.add_0_r.
    unfold mbind, M_bind.
    destruct (walk_parts p false None i ps2 node h) as [[zs | e |] h1];
      reflexivity.
  - cbn [length]. rewrite Nat.add_succ_r.
    destruct (decide (part = PosixPath.root p)).
    + apply IH.
    + intros (v & h1 & Hs & Hk)%bind_inv_ok.
      pose proof (walk_step_ok p p i i _ _ _ _ _ Hs) as [-> _].
      apply bind_inv_ok in Hk as (zs & h2 & Hw & Hk).
      pose proof (walk_parts_ok p p _ (S i) (S i) _ _ _ _ eq_refl Hw) as [-> _].
      injection Hk as <-.
      erewrite bind_ok by exact Hs.
      rewrite last_cons_shift.
      unfold mbind at 1. unfold M_bind at 1. rewrite (IH _ _ _ _ Hw).
      unfold mbind, M_bind. cbn [Nat.add].
      destruct (walk_parts p false None (S (i + length ps1)) ps2
                  (List.last zs v) h) as [[ws | e |] h1]; reflexivity.
Qed.

Lemma last_cons_default (x : val) xs : last (x :: xs) = Some (List.last xs x).
Proof.
  revert x. induction xs as [| y ys IH]; intros x; [reflexivity |].
  change (last (x :: y :: ys)) with (last (y :: ys)).
  now rewrite IH, last_cons_shift.
Qed.

Lemma parts_app rt pre suf :
  PosixPath.parts (PosixPath.mk rt (pre ++ suf))
  = (PosixPath.parts (PosixPath.mk rt pre) ++ suf)%list.
Proof.
  unfold PosixPath.parts, PosixPath.is_absolute.
  cbn [PosixPath.root PosixPath.names].
  destruct (negb _); reflexivity.
Qed.

Lemma wf_path_prefix rt pre suf :
  PosixPath.wf_path (PosixPath.mk rt (pre ++ suf)) ->
  PosixPath.wf_path (PosixPath.mk rt pre).
Proof. intros [Hr Hn]. split; [exact Hr |]. cbn in *. now apply Forall_app in Hn. Qed.

(** What a successful [get_at_path] went through. *)
Lemma get_at_path_inv fuel t q ensure_exists h v h' :
  get_at_path fuel t q ensure_exists h = (Ok v, h') ->
  exists node zs,
    (if PosixPath.is_absolute q then VTree <$> root fuel t
     else mret (VTree t)) h = (Ok node, h)
    /\ walk_parts q false None 0 (PosixPath.parts q) node h = (Ok zs, h)
    /\ List.last zs node = v
    /\ h' = h.
Proof.
  intros Hget. unfold get_at_path in Hget.
  apply bind_inv_ok in Hget as (ys & h1 & Hw & Hl).
  unfold _walk_path in Hw.
  apply bind_inv_ok in Hw as (node & h0 & Hn & Hw).
  apply bind_inv_ok in Hw as (zs & h2 & Hw & Hret).
  injection Hret as <- <-.
  assert (h0 = h) as ->.
  { destruct (PosixPath.is_absolute q).
    - unfold fmap, M_fmap in Hn.
      pose proof (root_heap fuel t h) as Hh.
      destruct (root fuel t h) as [[r | e |] hr]; cbn in Hh; subst;
        now inversion Hn.
    - now inversion Hn. }
  pose proof (walk_parts_ok q q _ 0 0 _ _ _ _ eq_refl Hw) as [-> _].
  rewrite last_cons_default in Hl. injection Hl as <- <-.
  now exists node, zs.
Qed.

Lemma wf_path_key_not_root rt pre k rest :
  PosixPath.wf_path (PosixPath.mk rt (pre ++ k :: rest)) -> k <> rt.
Proof.
  intros [Hr Hn]. cbn in Hr, Hn.
  apply Forall_app in Hn as [_ Hn]. inversion Hn; subst.
  now apply clean_not_root.
Qed.

(** One more segment after a path that resolves: the last step decides. *)
Lemma get_at_path_snoc fuel t rt pre k ensure_exists h v h' a :
  k <> rt ->
  get_at_path fuel t (PosixPath.mk rt pre) false h = (Ok v, h') ->
  walk_step (PosixPath.mk rt (pre ++ [k])) false None
    (length (PosixPath.parts (PosixPath.mk rt pre))) k v h = (Ok a, h) ->
  get_at_path fuel t (PosixPath.mk rt (pre ++ [k])) ensure_exists h = (Ok a, h).
Proof.
  intros Hk Hpre Hstep.
  set (q := PosixPath.mk rt pre) in *.
  set (p := PosixPath.mk rt (pre ++ [k])) in *.
  destruct (get_at_path_inv _ _ _ _ _ _ _ Hpre) as (node & zs & Hn & Hw & El & ->).
  pose proof (walk_parts_ok q p _ 0 0 _ _ _ _ eq_refl Hw) as [_ Hwp].
  assert (Hwalk : _walk_path fuel t p false None h
                  = (Ok ((node :: zs) ++ [a])%list, h)).
  { unfold _walk_path.
    change (PosixPath.is_absolute p) with (PosixPath.is_absolute q).
    mok by exact Hn.
    erewrite bind_ok; [reflexivity |].
    unfold p at 2. rewrite parts_app. change (PosixPath.mk rt pre) with q.
    rewrite (walk_parts_app p _ [k] _ _ _ _ Hwp), El.
    erewrite bind_ok; [reflexivity |].
    cbn [walk_parts]. change (PosixPath.root p) with rt.
    rewrite decide_False by exact Hk. rewrite Nat.add_0_l.
    mok by exact Hstep. reflexivity. }
  unfold get_at_path. mok by exact Hwalk. now rewrite last_snoc.
Qed.

(** Walking on after [None]: the next segment raises. *)
Lemma get_at_path_after_None fuel t rt pre k rest ensure_exists h h' :
  PosixPath.wf_path (PosixPath.mk rt (pre ++ k :: rest)) ->
  get_at_path fuel t (PosixPath.mk rt pre) false h = (Ok VNone, h') ->
  get_at_path fuel t (PosixPath.mk rt (pre ++ k :: rest)) ensure_exists h
  = (Raise (KeyError ("Child node at path "
                        ++ PosixPath.to_string (PosixPath.mk rt pre)
                        ++ " has no child with key " ++ k)), h).
Proof.
  intros Hwf Hpre.
  set (q := PosixPath.mk rt pre) in *.
  set (p := PosixPath.mk rt (pre ++ k :: rest)) in *.
  assert (Hq : PosixPath.wf_path q) by (eapply wf_path_prefix; exact Hwf).
  assert (Hk : k <> rt) by (eapply wf_path_key_not_root; exact Hwf).
  destruct (get_at_path_inv _ _ _ _ _ _ _ Hpre) as (node & zs & Hn & Hw & El & ->).
  pose proof (walk_parts_ok q p _ 0 0 _ _ _ _ eq_refl Hw) as [_ Hwp].
  unfold get_at_path, _walk_path.
  change (PosixPath.is_absolute p) with (PosixPath.is_absolute q).
  apply bind_raise. erewrite bind_ok by exact Hn. apply bind_raise.
  unfold p at 2. rewrite parts_app. change (PosixPath.mk rt pre) with q.
  rewrite (walk_parts_app p _ (k :: rest) _ _ _ _ Hwp), El.
  apply bind_raise. cbn [walk_parts]. change (PosixPath.root p) with rt.
  rewrite decide_False by exact Hk. apply bind_raise. cbn [walk_step].
  unfold missing_child_msg. unfold p. rewrite parts_app.
  change (PosixPath.mk rt pre) with q.
  rewrite Nat.add_0_l, take_app_length, joinpath_parts by exact Hq.
  reflexivity.
Qed.

(** C6 (as amended): let the walk along the segments [pre] reach the tree
    node [n], and let the next segment [k] be a key that [n] does not
    have.  If [k] is the final segment, [get_at_path] raises nothing and
    returns [None].  If a segment [k'] follows, [get_at_path] raises
    [KeyError]; the message gives the prefix that ends in the missing key
    [k] as the path, and [k'] as the key.  The store is left as it was. *)
Theorem get_at_path_missing_key fuel t rt pre n k rest ensure_exists h h' :
  PosixPath.wf_path (PosixPath.mk rt (pre ++ k :: rest)) ->
  k <> PosixPath.pardir ->
  get_at_path fuel t (PosixPath.mk rt pre) false h = (Ok (VTree n), h') ->
  items (h !!! n) !! k = None ->
  get_at_path fuel t (PosixPath.mk rt (pre ++ k :: rest)) ensure_exists h
  = match rest with
    | [] => (Ok VNone, h)
    | k' :: _ =>
        (Raise (KeyError ("Child node at path "
                            ++ PosixPath.to_string (PosixPath.mk rt (pre ++ [k]))
                            ++ " has no child with key " ++ k')), h)
    end.
Proof.
  intros Hwf Hpar Hpre Hk.
  assert (Hne : k <> rt) by (eapply wf_path_key_not_root; exact Hwf).
  assert (Hlast : forall ens,
             get_at_path fuel t (PosixPath.mk rt (pre ++ [k])) ens h
             = (Ok VNone, h)).
  { intros ens. eapply get_at_path_snoc; [exact Hne | exact Hpre |].
    cbn [walk_step]. rewrite decide_False by exact Hpar.
    now rewrite get_eq, Hk. }
  destruct rest as [| k' rest]; [apply Hlast |].
  replace (pre ++ k :: k' :: rest)%list with ((pre ++ [k]) ++ k' :: rest)%list
    by now rewrite <- app_assoc.
  eapply get_at_path_after_None; [| apply Hlast].
  now rewrite <- app_assoc.
Qed.

Lemma get_at_path_missing_key_witness :
  PosixPath.wf_path (PosixPath.mk "/" ([] ++ "missing" :: ["x"]))
  /\ "missing" <> PosixPath.pardir
  /\ get_at_path 1 0 (PosixPath.mk "/" []) false h_single
     = (Ok (VTree 0), h_single)
  /\ items (h_single !!! 0%nat) !! "missing" = None
  /\ get_at_path 1 0 (PosixPath.PurePosixPath "/missing/x") false h_single
     = (Raise (KeyError "Child node at path /missing has no child with key x"),
        h_single).
Proof.
  assert (Hwf : PosixPath.wf_path (PosixPath.mk "/" ([] ++ "missing" :: ["x"]))).
  { split; [right; left; reflexivity | repeat constructor]. }
  assert (Hpar : "missing" <> PosixPath.pardir) by discriminate.
  assert (Hpre : get_at_path 1 0 (PosixPath.mk "/" []) false h_single
                 = (Ok (VTree 0), h_single)) by (vm_compute; reflexivity).
  assert (Hk : items (h_single !!! 0%nat) !! "missing" = None)
    by (vm_compute; reflexivity).
  split; [exact Hwf |]. split; [exact Hpar |]. split; [exact Hpre |].
  split; [exact Hk |].
  exact (get_at_path_missing_key 1 0 "/" [] 0 "missing" ["x"] false
           h_single h_single Hwf Hpar Hpre Hk).
Defined.

(** C6 as stated fails when the missing key is the final one: the walk
    yields [None] for it and nothing is raised. *)
Lemma get_at_path_missing_final_key :
  items (h_single !!! 0%nat) !! "missing" = None
  /\ get_at_path 1 0 (PosixPath.PurePosixPath "/missing") false h_single
     = (Ok VNone, h_single)
  /\ forall e,
       (get_at_path 1 0 (PosixPath.PurePosixPath "/missing") false h_single).1
       <> Raise e.
Proof.
  assert (E : get_at_path 1 0 (PosixPath.PurePosixPath "/missing") false h_single
              = (Ok VNone, h_single)) by (vm_compute; reflexivity).
  split; [vm_compute; reflexivity |]. split; [exact E |].
  intros e. rewrite E. discriminate.
Qed.

(** The example of the specification, on any tree whose root lacks the
    key. *)
Lemma get_at_path_missing_x fuel t n r ensure_exists h :
  root_at h t n r -> n < fuel ->
  items (h !!! r) !! "missing" = None ->
  get_at_path fuel t (PosixPath.PurePosixPath "/missing/x") ensure_exists h
  = (Raise (KeyError "Child node at path /missing has no child with key x"), h).
Proof.
  intros Hroot Hlt Hm. pose proof (root_spec _ _ _ _ Hroot _ Hlt) as Hr.
  change (PosixPath.PurePosixPath "/missing/x")
    with (PosixPath.mk "/" ["missing"; "x"]).
  unfold get_at_path, _walk_path. mrun. rewrite Hr. mgo.
  rewrite ?get_eq, Hm. reflexivity.
Qed.

(** C10: on a root ([parent] is [None]) [get_at_path("..")] raises nothing
    and returns [None], whatever [ensure_exists] is; the store is left as
    it was. *)
Theorem get_at_path_pardir_of_root fuel r ensure_exists h :
  _parent (h !!! r) = None ->
  get_at_path fuel r (PosixPath.PurePosixPath "..") ensure_exists h
    = (Ok VNone, h).
Proof.
  intros Hp.
  change (PosixPath.PurePosixPath "..") with (PosixPath.mk "" [".."]).
  unfold get_at_path, _walk_path. mgo.
  rewrite ?parent_eq, Hp. reflexivity.
Qed.

Lemma get_at_path_pardir_of_root_witness :
  _parent (h_single !!! 0%nat) = None
  /\ get_at_path 0 0 (PosixPath.PurePosixPath "..") false h_single
     = (Ok VNone, h_single).
Proof.
  split; [vm_compute; reflexivity |].
  apply get_at_path_pardir_of_root. vm_compute; reflexivity.
Defined.

(** C2 (the code departs from it): on a tree whose root (reached from the
    receiver with the fuel given) has no key ["a"],
    [set_at_path("/a/b", value, ensure_parents_exist=True)] creates
    nothing: the parent path resolves to [None] and the assignment into it
    raises [TypeError]; the store is left as it was. *)
Theorem set_at_path_ensure_parents_raises fuel t n r value h :
  root_at h t n r -> n < fuel ->
  items (h !!! r) !! "a" = None ->
  set_at_path fuel t "/a/b" value true h
    = (Raise (TypeError "'NoneType' object does not support item assignment"), h).
Proof.
  intros Hroot Hlt Ha. pose proof (root_spec _ _ _ _ Hroot _ Hlt) as Hr.
  unfold set_at_path.
  change (PosixPath.parent (PosixPath.PurePosixPath "/a/b"))
    with (PosixPath.mk "/" ["a"]).
  unfold get_at_path, _walk_path. mrun. rewrite Hr. mgo.
  rewrite ?get_eq, Ha. reflexivity.
Qed.

Lemma set_at_path_ensure_parents_raises_witness :
  root_at h_single 0 0 0
  /\ 0 < 1
  /\ items (h_single !!! 0%nat) !! "a" = None
  /\ set_at_path 1 0 "/a/b" (VInt 42) true h_single
     = (Raise (TypeError "'NoneType' object does not support item assignment"),
        h_single).
Proof.
  assert (Hr : root_at h_single 0 0 0)
    by (constructor; left; vm_compute; reflexivity).
  assert (Hlt : 0 < 1) by lia.
  assert (Ha : items (h_single !!! 0%nat) !! "a" = None) by (vm_compute; reflexivity).
  split; [exact Hr |]. split; [exact Hlt |]. split; [exact Ha |].
  exact (set_at_path_ensure_parents_raises 1 0 0 0 (VInt 42) h_single Hr Hlt Ha).
Defined.

(** Forwarding [ensure_exists] would not create the node either: the walk
    reaches [None] for the missing key and calls [attach] on it. *)
Lemma walk_path_ensure_exists_raises fuel t n r h :
  root_at h t n r -> n < fuel ->
  items (h !!! r) !! "a" = None ->
  _walk_path fuel t (PosixPath.PurePosixPath "/a/b") true None h
    = (Raise (AttributeError "'NoneType' object has no attribute 'attach'"), h).
Proof.
  intros Hroot Hlt Ha. pose proof (root_spec _ _ _ _ Hroot _ Hlt) as Hr.
  change (PosixPath.PurePosixPath "/a/b") with (PosixPath.mk "/" ["a"; "b"]).
  unfold _walk_path. mrun. rewrite Hr. mgo.
  rewrite ?get_eq, Ha. reflexivity.
Qed.

End DictTreeSpec.
(** ** The monads *)

Module MonadSpec.
Import Monad.

Section Facts.
Variable client : nat -> val -> gmap loc obj -> res val * gmap loc obj.
Variables fuel depth : nat.

Implicit Types (st : store) (l m : loc) (v w x : val) (o : obj).

Lemma deref_eq l o st :
  heap st !! l = Some o -> deref l st = (Ok o, st).
Proof. intros E. unfold deref. now rewrite (lookup_total_correct _ _ _ E). Qed.

Lemma get_field_eq l o name v st :
  heap st !! l = Some o -> field o name = Some v ->
  get_field l name st = (Ok v, st).
Proof.
  intros E F. unfold get_field. erewrite bind_ok by (apply deref_eq, E).
  now rewrite F.
Qed.

Lemma setattr_eq l o name x o' st :
  heap st !! l = Some o -> set_field o name x = Some o' ->
  setattr l name x st = (Ok tt, upd l o' st).
Proof.
  intros E F. unfold setattr. erewrite bind_ok by (apply deref_eq, E).
  now rewrite F.
Qed.

Lemma new_eq o st :
  new o st = (Ok (VRef (fresh (dom (heap st)))),
              upd (fresh (dom (heap st))) o st).
Proof. reflexivity. Qed.

Lemma fresh_lookup st : heap st !! fresh (dom (heap st)) = None.
Proof. apply not_elem_of_dom, is_fresh. Qed.

Lemma fresh_ne l o st : heap st !! l = Some o -> fresh (dom (heap st)) <> l.
Proof.
  intros E N. rewrite <- N in E. rewrite fresh_lookup in E. discriminate.
Qed.

Lemma upd_lookup l o st : heap (upd l o st) !! l = Some o.
Proof. apply lookup_insert_eq. Qed.

Lemma upd_lookup_ne l l' o st :
  l <> l' -> heap (upd l o st) !! l' = heap st !! l'.
Proof. intros N. now apply lookup_insert_ne. Qed.

Lemma upd_upd l o o' st : upd l o (upd l o' st) = upd l o st.
Proof. unfold upd. cbn. now rewrite insert_insert_eq. Qed.

Lemma upd_id l o st : heap st !! l = Some o -> upd l o st = st.
Proof. intros E. destruct st as [h cs]. unfold upd. cbn in *. now rewrite insert_id. Qed.

Lemma upd_commute l l' o o' st :
  l <> l' -> upd l o (upd l' o' st) = upd l' o' (upd l o st).
Proof. intros N. unfold upd. cbn. now rewrite insert_insert_ne. Qed.

Lemma fresh_upd l o o' st :
  heap st !! l = Some o ->
  fresh (dom (heap (upd l o' st))) = fresh (dom (heap st)).
Proof.
  intros E. unfold upd. cbn. rewrite dom_insert_L.
  f_equal. apply elem_of_dom_2 in E.
  now apply subseteq_union_1_L, singleton_subseteq_l.
Qed.

Lemma as_monad_eq l o c method st :
  heap st !! l = Some o -> class_of o = Some c ->
  as_monad (VRef l) method st = (Ok (l, c), st).
Proof.
  intros E C. unfold as_monad. erewrite bind_ok by (apply deref_eq, E).
  now rewrite C.
Qed.

Lemma Maybe_is_nothing_eq l v st :
  heap st !! l = Some (OMaybe v) ->
  Maybe_is_nothing l st = (Ok (is_sentinel v), st).
Proof.
  intros E. unfold Maybe_is_nothing.
  erewrite bind_ok by (eapply get_field_eq; [exact E | reflexivity]).
  reflexivity.
Qed.

Lemma Maybe_Nothing_eq st :
  Maybe_Nothing fuel st
  = (Ok (VRef (fresh (dom (heap st)))),
     upd (fresh (dom (heap st))) (OMaybe VSentinel) st).
Proof. reflexivity. Qed.

Lemma getattr_value_eq l v st :
  heap st !! l = Some (OMaybe v) ->
  getattr fuel l "value" st
  = if is_sentinel v then Maybe_Nothing fuel st else (Ok v, st).
Proof.
  intros E. unfold getattr.
  erewrite bind_ok by (apply deref_eq, E).
  cbn [field]. rewrite decide_False by done. rewrite decide_True by done.
  unfold Maybe_value.
  erewrite bind_ok by (apply Maybe_is_nothing_eq, E).
  destruct (is_sentinel v); cbn [negb]; [reflexivity |].
  eapply get_field_eq; [exact E | reflexivity].
Qed.

(** C8: reading [.value] raises nothing.  On an absent [Maybe] it
    answers a new [Maybe], absent as well, and leaves the receiver as it
    is; on a present one it answers the payload and leaves the store as
    it is. *)
Theorem Maybe_value_absent_present l v st :
  heap st !! l = Some (OMaybe v) ->
  if is_sentinel v then
    let l' := fresh (dom (heap st)) in
    let st' := upd l' (OMaybe VSentinel) st in
    getattr fuel l "value" st = (Ok (VRef l'), st')
    /\ Maybe_is_nothing l' st' = (Ok true, st')
    /\ l' <> l
  else getattr fuel l "value" st = (Ok v, st).
Proof.
  intros E. rewrite (getattr_value_eq _ _ _ E).
  destruct (is_sentinel v); [| reflexivity].
  rewrite Maybe_Nothing_eq. split; [reflexivity |]. split.
  - erewrite Maybe_is_nothing_eq by apply upd_lookup. reflexivity.
  - eapply fresh_ne, E.
Qed.

(** C7: [fmap] on an absent [Maybe], here the one [Nothing()] builds,
    answers a new absent [Maybe] for every [func], callable or not, and
    whatever the client functions do: none is called (the log of calls
    is as before), and nothing but the two new objects is in the
    store. *)
Theorem Nothing_fmap_is_nothing func st :
  exists l st1 l' st2,
    Nothing fuel st = (Ok (VRef l), st1)
    /\ fmap client fuel depth l func st1 = (Ok (VRef l'), st2)
    /\ Maybe_is_nothing l' st2 = (Ok true, st2)
    /\ calls st2 = calls st
    /\ heap st2 = <[l' := OMaybe VSentinel]> (<[l := OMaybe VSentinel]> (heap st)).
Proof.
  set (l := fresh (dom (heap st))).
  set (st1 := upd l (OMaybe VSentinel) st).
  set (l' := fresh (dom (heap st1))).
  exists l, st1, l', (upd l' (OMaybe VSentinel) st1).
  assert (E1 : heap st1 !! l = Some (OMaybe VSentinel)) by apply upd_lookup.
  split; [reflexivity |]. split; [| split; [| split; reflexivity]].
  - unfold fmap, fmap_with.
    erewrite bind_ok by (eapply as_monad_eq; [exact E1 | reflexivity]).
    cbn beta iota. unfold Maybe__fmap_cls.
    erewrite bind_ok by (apply Maybe_is_nothing_eq, E1).
    reflexivity.
  - erewrite Maybe_is_nothing_eq by apply upd_lookup. reflexivity.
Qed.

(** C1 (the code departs from it): [fmap] on a context monad maps
    nothing.  [_fmap_cls] reads [instance.value], an attribute the class
    does not have (it has [_value] and [_state]), so [AttributeError] is
    raised before [func] is called; the store is left as it was. *)
Theorem Context_fmap_raises l k v s func st :
  heap st !! l = Some (OContext k v s) ->
  fmap client fuel depth l func st = (Raise (AttributeError "value"), st).
Proof.
  intros E. unfold fmap, fmap_with.
  erewrite bind_ok by (eapply as_monad_eq; [exact E | reflexivity]).
  cbn beta iota. unfold Context__fmap_cls. apply bind_raise.
  unfold getattr. erewrite bind_ok by (apply deref_eq, E).
  cbn [field]. rewrite !decide_False by done. reflexivity.
Qed.

(** *** Nesting *)

Lemma instance_of_eq l o d c st :
  heap st !! l = Some o -> class_of o = Some d -> issubclass d c = true ->
  instance_of (VRef l) c st = (Ok (Some l), st).
Proof.
  intros E C S. unfold instance_of.
  erewrite bind_ok by (apply deref_eq, E). now rewrite C, S.
Qed.

Lemma instance_of_not c w st :
  not_instance (heap st) c w -> instance_of w c st = (Ok None, st).
Proof.
  destruct w; try reflexivity. intros (o & E & C). unfold instance_of.
  erewrite bind_ok by (apply deref_eq, E).
  destruct (class_of o); [now rewrite C | reflexivity].
Qed.

Lemma not_instance_clash h c l o d :
  not_instance h c (VRef l) -> h !! l = Some o -> class_of o = Some d ->
  issubclass d c = true -> False.
Proof.
  intros (o' & E' & C') E C S. rewrite E in E'. injection E' as <-.
  rewrite C in C'. congruence.
Qed.

Lemma nest_det h c v ls w :
  nest h c v ls w -> forall ls' w', nest h c v ls' w' -> ls = ls' /\ w = w'.
Proof.
  induction 1 as [w Hn | l o d v ls w E C S F Hnest IH]; intros ls' w' H'.
  - inversion H' as [? Hn' | l' o' d' v' ls0 ? E' C' S' F' Hnest']; subst.
    + now split.
    + exfalso. eapply not_instance_clash; eassumption.
  - inversion H' as [? Hn' | l' o' d' v' ls0 ? E' C' S' F' Hnest']; subst.
    + exfalso. eapply not_instance_clash; eassumption.
    + rewrite E in E'. injection E' as <-. rewrite F in F'. injection F' as <-.
      destruct (IH _ _ Hnest') as [-> ->]. now split.
Qed.

Lemma nest_suffix h c m v ls w :
  nest h c v ls w -> m ∈ ls ->
  exists ls1 ls2, ls = (ls1 ++ m :: ls2)%list /\ nest h c (VRef m) (m :: ls2) w.
Proof.
  induction 1 as [w Hn | l o d v ls w E C S F Hnest IH]; intros Hin.
  - now apply elem_of_nil in Hin.
  - destruct (decide (m = l)) as [-> | Hne].
    + exists [], ls. split; [reflexivity |]. econstructor; eassumption.
    + apply elem_of_cons in Hin as [? | Hin]; [contradiction |].
      destruct (IH Hin) as (ls1 & ls2 & -> & Hm).
      now exists (l :: ls1), ls2.
Qed.

(** No instance is nested in itself: the layers below [m] do not
    contain [m]. *)
Lemma nest_not_in h c m o d v ls w :
  h !! m = Some o -> class_of o = Some d -> issubclass d c = true ->
  field o "_value" = Some v -> nest h c v ls w -> m ∉ ls.
Proof.
  intros E C S F Hnest Hin.
  destruct (nest_suffix _ _ _ _ _ _ Hnest Hin) as (ls1 & ls2 & -> & Hm).
  inversion Hm as [| ? o' ? v' ? ? E' _ _ F' Hnest']; subst.
  rewrite E in E'. injection E' as <-. rewrite F in F'. injection F' as <-.
  destruct (nest_det _ _ _ _ _ Hnest _ _ Hnest') as [Hl _].
  apply (f_equal length) in Hl. rewrite length_app in Hl. cbn in Hl. lia.
Qed.

Lemma nest_payload_ne h c m o d v ls w :
  h !! m = Some o -> class_of o = Some d -> issubclass d c = true ->
  nest h c v ls w -> w <> VRef m.
Proof.
  intros E C S Hnest ->.
  assert (Hn : not_instance h c (VRef m)).
  { clear -Hnest. remember (VRef m) as w eqn:Ew.
    induction Hnest; [now subst | auto]. }
  eapply not_instance_clash; eassumption.
Qed.

(** Nesting only depends on the objects it goes through. *)
Lemma not_instance_agree h h' c w :
  not_instance h c w ->
  (forall l o, w = VRef l -> h !! l = Some o -> h' !! l = Some o) ->
  not_instance h' c w.
Proof.
  destruct w; try (intros; exact I). intros (o & E & C) Hag.
  exists o. split; [now apply Hag | exact C].
Qed.

Lemma nest_agree h h' c v ls w :
  nest h c v ls w ->
  (forall l o, l ∈ ls -> h !! l = Some o -> h' !! l = Some o) ->
  (forall l o, w = VRef l -> h !! l = Some o -> h' !! l = Some o) ->
  nest h' c v ls w.
Proof.
  induction 1 as [w Hn | l o d v ls w E C S F Hnest IH]; intros Hls Hw.
  - constructor. eapply not_instance_agree; eassumption.
  - econstructor; [apply Hls; [left | exact E] | exact C | exact S | exact F |].
    apply IH; [| exact Hw]. intros l' o' Hin. apply Hls. now right.
Qed.

Lemma states_agree h h' ls :
  (forall l, l ∈ ls -> h' !! l = h !! l) -> states h' ls = states h ls.
Proof.
  induction ls as [| l ls IH]; intros Hag; [reflexivity |].
  unfold states. cbn [omap list_omap]. rewrite !lookup_total_alt.
  rewrite (Hag l) by left. fold (states h' ls) (states h ls).
  rewrite IH; [reflexivity |]. intros l' Hin. apply Hag. now right.
Qed.

Lemma nest_allocated h c v ls w l :
  nest h c v ls w -> l ∈ ls -> is_Some (h !! l).
Proof.
  induction 1 as [| l0 o d v ls w E C S F Hnest IH]; intros Hin.
  - now apply elem_of_nil in Hin.
  - apply elem_of_cons in Hin as [-> | Hin]; [eauto | auto].
Qed.

(** *** Addition of states *)

(** An addition only allocates: what was in the store stays. *)
Lemma add_frame a b st r st' :
  add a b st = (r, st') ->
  calls st' = calls st
  /\ forall l o, heap st !! l = Some o -> heap st' !! l = Some o.
Proof.
  unfold add. intros H.
  destruct a, b; try (injection H as <- <-; now split).
  unfold mbind, M_bind, deref in H.
  destruct (heap st !!! l) as [| | | [] d1]; try (injection H as <- <-; now split).
  destruct (heap st !!! l0) as [| | | s2 d2]; try (injection H as <- <-; now split).
  rewrite new_eq in H. injection H as <- <-. split; [reflexivity |].
  intros l' o' E. rewrite upd_lookup_ne; [exact E |]. eapply fresh_ne, E.
Qed.

(** The attributes of a context monad do not matter to an addition. *)
Lemma add_upd m k v s v' s' a b st :
  heap st !! m = Some (OContext k v s) ->
  add a b (upd m (OContext k v' s') st)
  = let '(r, st') := add a b st in (r, upd m (OContext k v' s') st').
Proof.
  intros E. unfold add.
  destruct a as [| | | | | | | | | | la], b as [| | | | | | | | | | lb];
    try reflexivity.
  unfold mbind, M_bind, deref.
  assert (D : forall l, match heap (upd m (OContext k v' s') st) !!! l with
                        | ODict _ _ => heap (upd m (OContext k v' s') st) !!! l
                                       = heap st !!! l
                        | _ => match heap st !!! l with
                               | ODict _ _ => False
                               | _ => True
                               end
                        end).
  { intros l. unfold upd. cbn [heap]. destruct (decide (m = l)) as [<- | N].
    - rewrite lookup_total_insert_eq.
      now rewrite (lookup_total_correct _ _ _ E).
    - rewrite lookup_total_insert_ne by exact N.
      now destruct (heap st !!! l). }
  pose proof (D la) as Da. pose proof (D lb) as Db.
  destruct (heap (upd m (OContext k v' s') st) !!! la) as [| | | sa da].
  1-3: destruct (heap st !!! la); try contradiction; reflexivity.
  rewrite <- Da.
  destruct (heap (upd m (OContext k v' s') st) !!! lb) as [| | | sb db].
  1-3: destruct (heap st !!! lb); try contradiction;
       destruct sa; reflexivity.
  rewrite <- Db. destruct sa; [| reflexivity].
  rewrite !new_eq. rewrite (fresh_upd _ _ _ _ E).
  rewrite upd_commute; [reflexivity |]. eapply fresh_ne, E.
Qed.

Lemma reduce_add_frame ss : forall a st r st',
  reduce add ss a st = (r, st') ->
  calls st' = calls st
  /\ forall l o, heap st !! l = Some o -> heap st' !! l = Some o.
Proof.
  induction ss as [| s ss IH]; intros a st r st' H; cbn [reduce] in H.
  - injection H as <- <-. now split.
  - unfold mbind, M_bind in H.
    destruct (add a s st) as [[r1 | e |] st1] eqn:Ea;
      try (injection H as <- <-; eapply add_frame, Ea).
    apply add_frame in Ea as [Ec Eh]. apply IH in H as [Ec' Eh'].
    split; [congruence | auto].
Qed.

Lemma reduce_add_upd m k v' s' ss : forall v s a st,
  heap st !! m = Some (OContext k v s) ->
  reduce add ss a (upd m (OContext k v' s') st)
  = let '(r, st') := reduce add ss a st in (r, upd m (OContext k v' s') st').
Proof.
  induction ss as [| s1 ss IH]; intros v s a st E; cbn [reduce]; [reflexivity |].
  unfold mbind, M_bind. rewrite (add_upd _ _ _ _ _ _ _ _ _ E).
  destruct (add a s1 st) as [[r1 | e |] st1] eqn:Ea; try reflexivity.
  apply add_frame in Ea as [_ Eh]. eapply IH, Eh, E.
Qed.

(** *** The loops of [_flatten_cls] *)

Lemma issubclass_Context d k :
  issubclass d (Context k) = true -> exists k', d = Context k'.
Proof. destruct d; [discriminate | eauto]. Qed.

Lemma Maybe_flatten_loop_spec ls : forall n st m v w,
  heap st !! m = Some (OMaybe v) ->
  nest (heap st) Maybe v ls w ->
  length ls < n ->
  Maybe__flatten_cls_loop n m st = (Ok tt, upd m (OMaybe w) st).
Proof.
  induction ls as [| l ls IH]; intros n st m v w E Hnest Hlen;
    (destruct n as [| n]; [cbn in Hlen; lia |]); cbn [Maybe__flatten_cls_loop];
    mok by (eapply get_field_eq; [exact E | reflexivity]);
    inversion Hnest as [? Hn | ? o d v1 ? ? El C S F Hnest1]; subst.
  - mok by (apply instance_of_not, Hn).
    now rewrite (upd_id _ _ _ E).
  - mok by (eapply instance_of_eq; eassumption).
    mok by (eapply get_field_eq; eassumption).
    mok by (eapply setattr_eq; [exact E | reflexivity]).
    assert (Hm : m ∉ l :: ls).
    { eapply (nest_not_in _ Maybe m (OMaybe (VRef l)));
        [exact E | reflexivity | reflexivity | reflexivity | exact Hnest]. }
    assert (Hw : w <> VRef m).
    { eapply (nest_payload_ne _ Maybe m (OMaybe (VRef l)) Maybe);
        [exact E | reflexivity | reflexivity | exact Hnest]. }
    rewrite (IH n (upd m (OMaybe v1) st) m v1 w).
    + now rewrite upd_upd.
    + apply upd_lookup.
    + eapply nest_agree; [exact Hnest1 | |].
      * intros l' o' Hin E'. rewrite upd_lookup_ne; [exact E' |].
        intros <-. apply Hm. now right.
      * intros l' o' -> E'. rewrite upd_lookup_ne; [exact E' |]. congruence.
    + cbn in Hlen. lia.
Qed.

Lemma Context_flatten_loop_spec ls : forall n st m k v s w r st2,
  heap st !! m = Some (OContext k v s) ->
  nest (heap st) (Context k) v ls w ->
  length ls < n ->
  reduce add (states (heap st) ls) s st = (Ok r, st2) ->
  Context__flatten_cls_loop n (Context k) m st
  = (Ok tt, upd m (OContext k w r) st2).
Proof.
  induction ls as [| l ls IH]; intros n st m k v s w r st2 E Hnest Hlen Hsum;
    (destruct n as [| n]; [cbn in Hlen; lia |]);
    cbn [Context__flatten_cls_loop];
    mok by (eapply get_field_eq; [exact E | reflexivity]);
    inversion Hnest as [? Hn | ? o d v1 ? ? El C S F Hnest1]; subst.
  - mok by (apply instance_of_not, Hn).
    cbn in Hsum. injection Hsum as <- <-. now rewrite (upd_id _ _ _ E).
  - mok by (eapply instance_of_eq; eassumption).
    mok by (eapply get_field_eq; eassumption).
    mok by (eapply setattr_eq; [exact E | reflexivity]).
    assert (Hm : m ∉ l :: ls).
    { eapply (nest_not_in _ (Context k) m (OContext k (VRef l) s));
        [exact E | reflexivity | now destruct k | reflexivity | exact Hnest]. }
    assert (Hw : w <> VRef m).
    { eapply (nest_payload_ne _ (Context k) m (OContext k (VRef l) s) (Context k));
        [exact E | reflexivity | now destruct k | exact Hnest]. }
    assert (Hlm : l <> m) by (intros ->; apply Hm; left).
    destruct (issubclass_Context _ _ S) as [k' ->].
    destruct o as [| | k0 v0 s1 |]; try discriminate.
    cbn in F. injection F as ->.
    assert (Hst : states (heap st) (l :: ls) = s1 :: states (heap st) ls).
    { unfold states. cbn [omap list_omap].
      now rewrite (lookup_total_correct _ _ _ El). }
    rewrite Hst in Hsum. cbn [reduce] in Hsum.
    apply bind_inv_ok in Hsum as (r1 & st1 & Hadd & Hsum).
    pose proof (add_frame _ _ _ _ _ Hadd) as [_ Hfr].
    mok by (eapply get_field_eq; [apply upd_lookup | reflexivity]).
    mok by (eapply get_field_eq;
          [rewrite upd_lookup_ne by congruence; exact El | reflexivity]).
    mok by (rewrite (add_upd _ _ _ _ _ _ _ _ _ E), Hadd; reflexivity).
    mok by (eapply setattr_eq; [apply upd_lookup | reflexivity]).
    rewrite upd_upd.
    rewrite (IH n (upd m (OContext k v1 r1) st1) m k v1 r1 w r
               (upd m (OContext k v1 r1) st2)).
    + now rewrite upd_upd.
    + apply upd_lookup.
    + eapply nest_agree; [exact Hnest1 | |].
      * intros l' o' Hin E'. rewrite upd_lookup_ne; [now apply Hfr |].
        intros <-. apply Hm. now right.
      * intros l' o' -> E'. rewrite upd_lookup_ne; [now apply Hfr |]. congruence.
    + cbn in Hlen. lia.
    + rewrite (reduce_add_upd _ _ _ _ _ _ _ _ _ (Hfr _ _ E)).
      replace (states (heap (upd m (OContext k v1 r1) st1)) ls)
        with (states (heap st) ls).
      * now rewrite Hsum.
      * symmetry. apply states_agree. intros l' Hin.
        rewrite upd_lookup_ne by (intros <-; apply Hm; now right).
        destruct (nest_allocated _ _ _ _ _ _ Hnest1 Hin) as [o' E'].
        now rewrite E', (Hfr _ _ E').
Qed.

(** What [_flatten_cls] does to an instance of finite nesting, the
    additions of states succeeding. *)
Lemma flatten_cls_spec m o c v ls w r st st2 :
  heap st !! m = Some o -> class_of o = Some c ->
  field o "_value" = Some v ->
  nest (heap st) c v ls w ->
  length ls < fuel ->
  accumulated o ls st = (Ok r, st2) ->
  _flatten_cls fuel c m st = (Ok tt, upd m (flat o w r) st2).
Proof.
  intros E C F Hnest Hlen Hacc.
  destruct o as [| v0 | k v0 s |]; try discriminate;
    cbn in C, F; injection C as <-; injection F as ->; cbn [_flatten_cls flat].
  - cbn in Hacc. injection Hacc as <- <-.
    eapply Maybe_flatten_loop_spec; eassumption.
  - eapply Context_flatten_loop_spec; eassumption.
Qed.

Lemma flatten_spec m o c v ls w r st st2 :
  heap st !! m = Some o -> class_of o = Some c ->
  field o "_value" = Some v ->
  nest (heap st) c v ls w ->
  length ls < fuel ->
  accumulated o ls st = (Ok r, st2) ->
  flatten fuel m st = (Ok (VRef m), upd m (flat o w r) st2).
Proof.
  intros E C F Hnest Hlen Hacc. unfold flatten.
  mok by (eapply as_monad_eq; eassumption). cbv beta iota.
  mok by (eapply flatten_cls_spec; eassumption).
  reflexivity.
Qed.

Lemma nest_not_instance h c v ls w : nest h c v ls w -> not_instance h c w.
Proof. induction 1; assumption. Qed.

Lemma extends_new o st : extends st (upd (fresh (dom (heap st))) o st).
Proof.
  split; [reflexivity |]. intros l o' E.
  rewrite upd_lookup_ne; [exact E |]. eapply fresh_ne, E.
Qed.

Lemma extends_refl st : extends st st.
Proof. now split. Qed.

Lemma extends_trans st1 st2 st3 :
  extends st1 st2 -> extends st2 st3 -> extends st1 st3.
Proof. intros [C1 H1] [C2 H2]. split; [congruence | auto]. Qed.

Lemma nest_extends st st' c v ls w :
  extends st st' -> nest (heap st) c v ls w -> nest (heap st') c v ls w.
Proof. intros [_ H] Hn. eapply nest_agree; [exact Hn | |]; intros; now apply H. Qed.

Lemma extends_fresh_None st st' :
  extends st st' -> heap st !! fresh (dom (heap st')) = None.
Proof.
  intros [_ H]. destruct (heap st !! fresh (dom (heap st'))) as [o |] eqn:E;
    [| reflexivity].
  apply H in E. now rewrite fresh_lookup in E.
Qed.

(** *** Copies *)

Lemma copy_copy_ref l o st :
  heap st !! l = Some o ->
  copy_copy (VRef l) st
  = (Ok (VRef (fresh (dom (heap st)))), upd (fresh (dom (heap st))) o st).
Proof. intros E. unfold copy_copy. mok by (apply deref_eq, E). apply new_eq. Qed.

(** A copy of a payload is nested as deep as the payload. *)
Lemma copy_copy_nest v ls w st :
  nest (heap st) Maybe v ls w ->
  exists c st1 ls' w',
    copy_copy v st = (Ok c, st1)
    /\ nest (heap st1) Maybe c ls' w'
    /\ length ls' = length ls
    /\ extends st st1.
Proof.
  intros Hnest. inversion Hnest as [? Hn | l o d v1 ls1 ? E C S F Hnest1]; subst.
  - destruct w as [| | | | | | | | | | lw].
    1-3, 5-10: eexists _, st, [], _; split; [reflexivity |];
      split; [constructor; exact I |]; split; [reflexivity | apply extends_refl].
    + eexists _, _, [], _. split; [apply new_eq |].
      split; [| split; [reflexivity | apply extends_new]].
      constructor. exists OObject. split; [apply upd_lookup | exact I].
    + destruct Hn as (o & E & C).
      eexists _, _, [], _. split.
      { unfold copy_copy. mok by (apply deref_eq, E). apply new_eq. }
      split; [| split; [reflexivity | apply extends_new]].
      constructor. exists o. split; [apply upd_lookup | exact C].
  - exists (VRef (fresh (dom (heap st)))), (upd (fresh (dom (heap st))) o st),
      (fresh (dom (heap st)) :: ls1), w. split.
    { unfold copy_copy. mok by (apply deref_eq, E). apply new_eq. }
    split; [| split; [reflexivity | apply extends_new]].
    apply (nest_cons _ _ (fresh (dom (heap st))) o d v1 ls1 w);
      [apply upd_lookup | exact C | exact S | exact F |].
    eapply nest_extends; [apply extends_new | exact Hnest1].
Qed.

(** [Maybe.unit] on a [Maybe]: a new [Maybe] whose payload is none. *)
Lemma Maybe_unit_instance lv v0 ls w st :
  heap st !! lv = Some (OMaybe v0) ->
  nest (heap st) Maybe v0 ls w ->
  length ls < fuel ->
  exists lm w' st',
    Maybe_unit fuel (VRef lv) st = (Ok (VRef lm), st')
    /\ heap st' !! lm = Some (OMaybe w')
    /\ not_instance (heap st') Maybe w'
    /\ heap st !! lm = None
    /\ extends st st'.
Proof.
  intros E Hnest Hlen.
  destruct (copy_copy_nest _ _ _ _ Hnest) as (c & st1 & ls' & w' & Hc & Hn1 & Hl & Hx).
  set (lm := fresh (dom (heap st1))).
  set (st2 := upd lm (OMaybe c) st1).
  assert (Hx2 : extends st1 st2) by apply extends_new.
  assert (Hn2 : nest (heap st2) Maybe c ls' w') by (eapply nest_extends; eassumption).
  exists lm, w', (upd lm (OMaybe w') st1).
  split; [| split; [apply upd_lookup | split; [| split]]].
  - unfold Maybe_unit.
    mok by (eapply instance_of_eq; [exact E | reflexivity | reflexivity]).
    mok by (eapply get_field_eq; [exact E | reflexivity]).
    mok by exact Hc. mok by apply new_eq.
    change (flatten fuel lm st2 = (Ok (VRef lm), upd lm (OMaybe w') st1)).
    erewrite (flatten_spec lm (OMaybe c) Maybe c ls' w' VNone st2 st2);
      [unfold st2; cbn [flat]; now rewrite upd_upd | apply upd_lookup
      | reflexivity | reflexivity | exact Hn2 | lia | reflexivity].
  - pose proof (nest_not_instance _ _ _ _ _ Hn1) as Hni.
    eapply not_instance_agree; [exact Hni |].
    intros l o -> El. rewrite upd_lookup_ne; [exact El |]. eapply fresh_ne, El.
  - now apply extends_fresh_None.
  - eapply extends_trans; [exact Hx |]. apply extends_new.
Qed.

(** The sum of two [DictState]s is a plain dict, and a plain dict has no
    [+]: a third state cannot be added to the sum. *)
Lemma add_plain_dict_raises a d b st :
  heap st !! a = Some (ODict false d) ->
  add (VRef a) (VRef b) st
  = (Raise (TypeError "unsupported operand type(s) for +"), st).
Proof.
  intros E. unfold add. mok by (apply deref_eq, E).
  unfold mbind, M_bind, deref. now destruct (heap st !!! b).
Qed.

(** [fmap] on a present [Maybe] calls [func] on the payload. *)
Lemma Maybe_fmap_present (call : val -> val -> M store val) l v func st :
  heap st !! l = Some (OMaybe v) -> is_sentinel v = false ->
  fmap_with fuel call l func st
  = (r ← call func v; new (OMaybe r)) st.
Proof.
  intros E S. unfold fmap_with.
  erewrite bind_ok by (eapply as_monad_eq; [exact E | reflexivity]).
  cbn beta iota. unfold Maybe__fmap_cls.
  erewrite bind_ok by (apply Maybe_is_nothing_eq, E).
  rewrite S. erewrite bind_ok by (rewrite (getattr_value_eq _ _ _ E), S; reflexivity).
  reflexivity.
Qed.

(** C3 (the code departs from it): [apply] on a wrapped function and a
    wrapped value, both present, applies nothing.  The function handed
    to [fmap] passes [unit(call_with(x))], a [Maybe], to
    [monad_function.bind] where a function is expected, and calling it
    raises [TypeError]; the wrapped function is never called. *)
Theorem apply_present_raises lf lx f x d st :
  heap st !! lf = Some (OMaybe f) -> is_sentinel f = false ->
  heap st !! lx = Some (OMaybe x) -> is_sentinel x = false ->
  apply client fuel (S (S (S d))) Maybe (VRef lf) (VRef lx) st
  = (Raise (TypeError "'Maybe' object is not callable"),
     upd (fresh (dom (heap st))) (OMaybe (VCaller x)) st).
Proof.
  intros Ef Sf Ex Sx. unfold apply.
  erewrite bind_ok by (eapply as_monad_eq; [exact Ex | reflexivity]).
  cbv beta iota.
  erewrite bind_ok by (eapply as_monad_eq; [exact Ef | reflexivity]).
  cbv beta iota. apply bind_raise. unfold fmap.
  rewrite (Maybe_fmap_present _ _ _ _ _ Ex Sx). apply bind_raise.
  unfold compose_unary. cbn [call rev app reduce].
  set (n := fresh (dom (heap st))).
  set (st1 := upd n (OMaybe (VCaller x)) st).
  assert (Ef1 : heap st1 !! lf = Some (OMaybe f)).
  { unfold st1. rewrite upd_lookup_ne; [exact Ef |]. eapply fresh_ne, Ef. }
  erewrite (bind_ok _ _ st (VRef n) st1) by reflexivity.
  apply bind_raise. unfold bind_with. apply bind_raise.
  rewrite (Maybe_fmap_present _ _ _ _ _ Ef1 Sf). apply bind_raise.
  cbn [call]. erewrite bind_ok by (apply deref_eq, upd_lookup).
  reflexivity.
Qed.

(** C4 (as amended): for a [Maybe] [v] of finite nesting,
    [Maybe.unit(v)] flattens: it answers a new [Maybe] whose payload is
    no [Maybe], and leaves [v] as it was.  [Just(v)] does not flatten:
    it answers a new [Maybe] whose payload is [v] itself, a [Maybe].
    [Just(x)] and [unit(x)] do the same when [x] is no [Maybe]. *)
Theorem unit_flattens_Just_wraps lv v0 ls w st :
  heap st !! lv = Some (OMaybe v0) ->
  nest (heap st) Maybe v0 ls w ->
  length ls < fuel ->
  (exists lm w' st',
      Maybe_unit fuel (VRef lv) st = (Ok (VRef lm), st')
      /\ heap st' !! lm = Some (OMaybe w')
      /\ not_instance (heap st') Maybe w'
      /\ heap st !! lm = None
      /\ extends st st')
  /\ (let lj := fresh (dom (heap st)) in
      let st' := upd lj (OMaybe (VRef lv)) st in
      Just (VRef lv) st = (Ok (VRef lj), st')
      /\ instance_of (VRef lv) Maybe st' = (Ok (Some lv), st'))
  /\ (forall x, not_instance (heap st) Maybe x ->
                Just x st = Maybe_unit fuel x st).
Proof.
  intros E Hnest Hlen. split; [| split].
  - eapply Maybe_unit_instance; eassumption.
  - split; [reflexivity |].
    eapply (instance_of_eq lv (OMaybe v0) Maybe Maybe);
      [| reflexivity | reflexivity].
    rewrite upd_lookup_ne; [exact E |]. eapply fresh_ne, E.
  - intros x Hx. unfold Maybe_unit.
    mok by (apply instance_of_not, Hx). reflexivity.
Qed.

(** C5: [flatten] on a context monad [m] with state [s_outer] whose
    payload is nested through the instances at [ls] leaves in [m] the
    innermost payload, which is no instance, and the state
    [s_outer + s1 + ... + sn], the states of the layers added from the
    outermost to the innermost (so [s_outer + s_inner] for one layer),
    provided these additions succeed.  On a [DictState], [+] builds a
    new dict, the union in which the keys of the right operand win, and
    leaves both operands as they were. *)
Theorem Context_flatten_accumulates m k v s_outer ls w r st st2 :
  heap st !! m = Some (OContext k v s_outer) ->
  nest (heap st) (Context k) v ls w ->
  length ls < fuel ->
  reduce add (states (heap st) ls) s_outer st = (Ok r, st2) ->
  flatten fuel m st = (Ok (VRef m), upd m (OContext k w r) st2)
  /\ not_instance (heap (upd m (OContext k w r) st2)) (Context k) w
  /\ (forall l s_inner,
        ls = [l] -> field (heap st !!! l) "_state" = Some s_inner ->
        add s_outer s_inner st = (Ok r, st2))
  /\ (forall a b d1 is2 d2 st0,
        heap st0 !! a = Some (ODict true d1) ->
        heap st0 !! b = Some (ODict is2 d2) ->
        let l := fresh (dom (heap st0)) in
        let st' := upd l (ODict false (d2 ∪ d1)) st0 in
        add (VRef a) (VRef b) st0 = (Ok (VRef l), st')
        /\ heap st' !! a = Some (ODict true d1)
        /\ heap st' !! b = Some (ODict is2 d2)
        /\ forall key,
             (d2 ∪ d1) !! key
             = match d2 !! key with Some x => Some x | None => d1 !! key end).
Proof.
  intros E Hnest Hlen Hsum. split; [| split; [| split]].
  - eapply (flatten_spec m (OContext k v s_outer));
      [exact E | reflexivity | reflexivity | exact Hnest | exact Hlen | exact Hsum].
  - pose proof (reduce_add_frame _ _ _ _ _ Hsum) as [_ Hfr].
    eapply not_instance_agree; [eapply nest_not_instance, Hnest |].
    intros l o -> El. rewrite upd_lookup_ne; [now apply Hfr |].
    intros <-.
    eapply (nest_payload_ne _ (Context k) m (OContext k v s_outer) (Context k));
      [exact E | reflexivity | now destruct k | exact Hnest | reflexivity].
  - intros l s_inner -> Hs. unfold states in Hsum.
    cbn [omap list_omap] in Hsum. rewrite Hs in Hsum. cbn [reduce] in Hsum.
    apply bind_inv_ok in Hsum as (r1 & st1 & Hadd & Hret).
    injection Hret as <- <-. exact Hadd.
  - intros a b d1 is2 d2 st0 Ea Eb l st'. split; [| split; [| split]].
    + unfold add. mok by (apply deref_eq, Ea). mok by (apply deref_eq, Eb).
      apply new_eq.
    + unfold st'. rewrite upd_lookup_ne; [exact Ea |]. eapply fresh_ne, Ea.
    + unfold st'. rewrite upd_lookup_ne; [exact Eb |]. eapply fresh_ne, Eb.
    + intros key. rewrite lookup_union.
      destruct (d2 !! key), (d1 !! key); reflexivity.
Qed.

(** C9 (as amended): for a monad instance [m] of finite nesting,
    [m.flatten()] changes [m] in place, to its flattened form, and
    returns [m] itself; [flattened(m)] flattens a copy, which it
    returns, and leaves [m] as it was.  [m.bind(func)] on a [Maybe]
    does not return the receiver and writes nothing to it: the result is
    the new object [fmap] built, flattened in place. *)
Theorem flatten_in_place_bind_new m o c v ls w st :
  heap st !! m = Some o ->
  class_of o = Some c ->
  field o "_value" = Some v ->
  nest (heap st) c v ls w ->
  length ls < fuel ->
  (forall r st2,
      accumulated o ls st = (Ok r, st2) ->
      flatten fuel m st = (Ok (VRef m), upd m (flat o w r) st2))
  /\ (let m' := fresh (dom (heap st)) in
      forall r st2,
        accumulated o ls (upd m' o st) = (Ok r, st2) ->
        flattened fuel c m st = (Ok (VRef m'), upd m' (flat o w r) st2)
        /\ m' <> m
        /\ extends st (upd m' (flat o w r) st2))
  /\ (c = Maybe ->
      forall func,
        if is_sentinel v then
          let m' := fresh (dom (heap st)) in
          bind client fuel depth m func st
          = (Ok (VRef m'), upd m' (OMaybe VSentinel) st)
          /\ m' <> m
        else
          forall x st1 ls1 w1,
            call client fuel depth func v st = (Ok x, st1) ->
            heap st1 !! m = Some o ->
            nest (heap st1) Maybe x ls1 w1 ->
            length ls1 < fuel ->
            let m' := fresh (dom (heap st1)) in
            bind client fuel depth m func st
            = (Ok (VRef m'), upd m' (OMaybe w1) st1)
            /\ m' <> m
            /\ extends st1 (upd m' (OMaybe w1) st1)).
Proof.
  intros E C F Hnest Hlen. split; [| split].
  - intros r st2 Hacc. eapply flatten_spec; eassumption.
  - intros m' r st2 Hacc.
    assert (Hne : m' <> m) by (eapply fresh_ne, E).
    split; [| split; [exact Hne |]].
    + unfold flattened. mok by (apply copy_copy_ref, E). fold m'.
      mok by (eapply (flatten_cls_spec m' o c v ls w r);
              [apply upd_lookup | exact C | exact F
              | eapply nest_extends; [apply extends_new | exact Hnest]
              | exact Hlen | exact Hacc]).
      reflexivity.
    + assert (Hfr : extends (upd m' o st) st2).
      { destruct o; cbn in Hacc; try (injection Hacc as <- <-; apply extends_refl).
        eapply reduce_add_frame, Hacc. }
      destruct Hfr as [Hc Hfr]. split; [exact Hc |].
      intros l o' El. rewrite upd_lookup_ne by (eapply fresh_ne, El).
      apply Hfr. rewrite upd_lookup_ne by (eapply fresh_ne, El). exact El.
  - intros -> func.
    destruct o as [| v0 | |]; try discriminate. cbn in F. injection F as ->.
    destruct (is_sentinel v) eqn:Sv.
    + intros m'. split; [| eapply fresh_ne, E].
      unfold bind, bind_with, fmap_with.
      mok by (mok by (eapply as_monad_eq; [exact E | reflexivity]);
              unfold Maybe__fmap_cls;
              mok by (apply Maybe_is_nothing_eq, E);
              rewrite Sv; apply Maybe_Nothing_eq).
      fold m'.
      mok by (eapply as_monad_eq;
              [rewrite upd_lookup_ne by (eapply fresh_ne, E); exact E
              | reflexivity]).
      mok by (eapply (flatten_cls_spec m' (OMaybe VSentinel) Maybe VSentinel
                        [] VSentinel VNone);
              [apply upd_lookup | reflexivity | reflexivity
              | constructor; exact I | cbn; lia | reflexivity]).
      cbn [flat]. now rewrite upd_upd.
    + intros x st1 ls1 w1 Hcall E1 Hn1 Hl1 m'.
      assert (Hne : m' <> m) by (eapply fresh_ne, E1).
      split; [| split; [exact Hne | apply extends_new]].
      unfold bind, bind_with.
      mok by (rewrite (Maybe_fmap_present _ _ _ _ _ E Sv);
              mok by exact Hcall; apply new_eq).
      fold m'.
      mok by (eapply as_monad_eq;
              [rewrite upd_lookup_ne by exact Hne; exact E1 | reflexivity]).
      mok by (eapply (flatten_cls_spec m' (OMaybe x) Maybe x ls1 w1 VNone);
              [apply upd_lookup | reflexivity | reflexivity
              | eapply nest_extends; [apply extends_new | exact Hn1]
              | exact Hl1 | reflexivity]).
      cbn [flat]. now rewrite upd_upd.
Qed.

End Facts.

(** *** The theorems on the example inputs *)

Lemma Context_fmap_raises_witness :
  heap st_ctx !! 2%nat = Some (OContext DictStateMonad (VInt 7) (VRef 1))
  /\ fmap client_succ 1 1 2 (VFun 0) st_ctx
     = (Raise (AttributeError "value"), st_ctx).
Proof.
  assert (E : heap st_ctx !! 2%nat
              = Some (OContext DictStateMonad (VInt 7) (VRef 1)))
    by (vm_compute; reflexivity).
  split; [exact E |].
  exact (Context_fmap_raises client_succ 1 1 2 DictStateMonad (VInt 7)
           (VRef 1) (VFun 0) st_ctx E).
Defined.

Lemma apply_present_raises_witness :
  heap st_apply !! 0%nat = Some (OMaybe (VFun 0))
  /\ is_sentinel (VFun 0) = false
  /\ heap st_apply !! 1%nat = Some (OMaybe (VInt 5))
  /\ is_sentinel (VInt 5) = false
  /\ apply client_succ 1 3 Maybe (VRef 0) (VRef 1) st_apply
     = (Raise (TypeError "'Maybe' object is not callable"),
        upd (fresh (dom (heap st_apply))) (OMaybe (VCaller (VInt 5))) st_apply).
Proof.
  assert (Ef : heap st_apply !! 0%nat = Some (OMaybe (VFun 0)))
    by (vm_compute; reflexivity).
  assert (Ex : heap st_apply !! 1%nat = Some (OMaybe (VInt 5)))
    by (vm_compute; reflexivity).
  split; [exact Ef |]. split; [reflexivity |].
  split; [exact Ex |]. split; [reflexivity |].
  exact (apply_present_raises client_succ 1 0 1 (VFun 0) (VInt 5) 0 st_apply
           Ef eq_refl Ex eq_refl).
Defined.

Lemma Maybe_value_absent_present_witness :
  heap st_nothing !! 0%nat = Some (OMaybe VSentinel)
  /\ (let l' := fresh (dom (heap st_nothing)) in
      let st' := upd l' (OMaybe VSentinel) st_nothing in
      getattr 1 0 "value" st_nothing = (Ok (VRef l'), st')
      /\ Maybe_is_nothing l' st' = (Ok true, st')
      /\ l' <> 0%nat)
  /\ heap st_maybe !! 0%nat = Some (OMaybe (VInt 5))
  /\ getattr 1 0 "value" st_maybe = (Ok (VInt 5), st_maybe).
Proof.
  assert (En : heap st_nothing !! 0%nat = Some (OMaybe VSentinel))
    by (vm_compute; reflexivity).
  assert (Em : heap st_maybe !! 0%nat = Some (OMaybe (VInt 5)))
    by (vm_compute; reflexivity).
  split; [exact En |]. split.
  - exact (Maybe_value_absent_present 1 0 VSentinel st_nothing En).
  - split; [exact Em |].
    exact (Maybe_value_absent_present 1 0 (VInt 5) st_maybe Em).
Defined.

Lemma nest_st_maybe : nest (heap st_maybe) Maybe (VRef 0) [0%nat] (VInt 5).
Proof.
  apply (nest_cons _ _ 0%nat (OMaybe (VInt 5)) Maybe (VInt 5) [] (VInt 5));
    [vm_compute; reflexivity | reflexivity | reflexivity | reflexivity |].
  constructor. exact I.
Defined.

Lemma unit_flattens_Just_wraps_witness :
  heap st_maybe !! 1%nat = Some (OMaybe (VRef 0))
  /\ nest (heap st_maybe) Maybe (VRef 0) [0%nat] (VInt 5)
  /\ length [0%nat] < 2
  /\ (exists lm w' st',
        Maybe_unit 2 (VRef 1) st_maybe = (Ok (VRef lm), st')
        /\ heap st' !! lm = Some (OMaybe w')
        /\ not_instance (heap st') Maybe w'
        /\ heap st_maybe !! lm = None
        /\ extends st_maybe st')
  /\ (let lj := fresh (dom (heap st_maybe)) in
      let st' := upd lj (OMaybe (VRef 1)) st_maybe in
      Just (VRef 1) st_maybe = (Ok (VRef lj), st')
      /\ instance_of (VRef 1) Maybe st' = (Ok (Some 1%nat), st'))
  /\ (forall x, not_instance (heap st_maybe) Maybe x ->
                Just x st_maybe = Maybe_unit 2 x st_maybe).
Proof.
  assert (E : heap st_maybe !! 1%nat = Some (OMaybe (VRef 0)))
    by (vm_compute; reflexivity).
  assert (L : length [0%nat] < 2) by (cbn; lia).
  split; [exact E |]. split; [exact nest_st_maybe |]. split; [exact L |].
  exact (unit_flattens_Just_wraps 2 1 (VRef 0) [0%nat] (VInt 5) st_maybe
           E nest_st_maybe L).
Defined.

(** C4 as stated fails for [Just]: the payload of [Just(Just(5))] is the
    [Maybe] it was given, where [unit] of the same value holds 5. *)
Lemma Just_double_wraps :
  let st0 := Store {[ 0%nat := OMaybe (VInt 5) ]} [] in
  exists st1 st2,
    Just (VRef 0) st0 = (Ok (VRef 1), st1)
    /\ heap st1 !! 1%nat = Some (OMaybe (VRef 0))
    /\ instance_of (VRef 0) Maybe st1 = (Ok (Some 0%nat), st1)
    /\ Maybe_unit 1 (VRef 0) st0 = (Ok (VRef 1), st2)
    /\ heap st2 !! 1%nat = Some (OMaybe (VInt 5)).
Proof.
  intros st0. eexists _, _.
  split; [vm_compute; reflexivity |].
  split; [vm_compute; reflexivity |].
  split; [vm_compute; reflexivity |].
  split; vm_compute; reflexivity.
Qed.

Lemma nest_st_ctx :
  nest (heap st_ctx) (Context DictStateMonad) (VRef 2) [2%nat] (VInt 7).
Proof.
  apply (nest_cons _ _ 2%nat (OContext DictStateMonad (VInt 7) (VRef 1))
           (Context DictStateMonad) (VInt 7) [] (VInt 7));
    [vm_compute; reflexivity | reflexivity | reflexivity | reflexivity |].
  constructor. exact I.
Defined.

Lemma Context_flatten_accumulates_witness :
  let st2 := upd 4 (ODict false (d_inner ∪ d_outer)) st_ctx in
  heap st_ctx !! 3%nat = Some (OContext DictStateMonad (VRef 2) (VRef 0))
  /\ nest (heap st_ctx) (Context DictStateMonad) (VRef 2) [2%nat] (VInt 7)
  /\ length [2%nat] < 2
  /\ reduce add (states (heap st_ctx) [2%nat]) (VRef 0) st_ctx
     = (Ok (VRef 4), st2)
  /\ flatten 2 3 st_ctx
     = (Ok (VRef 3), upd 3 (OContext DictStateMonad (VInt 7) (VRef 4)) st2)
  /\ (d_inner ∪ d_outer) !! "a" = Some (VInt 1)
  /\ (d_inner ∪ d_outer) !! "b" = Some (VInt 2)
  /\ (d_inner ∪ d_outer) !! "k" = Some (VInt 9).
Proof.
  intros st2.
  assert (E : heap st_ctx !! 3%nat
              = Some (OContext DictStateMonad (VRef 2) (VRef 0)))
    by (vm_compute; reflexivity).
  assert (L : length [2%nat] < 2) by (cbn; lia).
  assert (R : reduce add (states (heap st_ctx) [2%nat]) (VRef 0) st_ctx
              = (Ok (VRef 4), st2)) by (vm_compute; reflexivity).
  split; [exact E |]. split; [exact nest_st_ctx |]. split; [exact L |].
  split; [exact R |]. split.
  - exact (proj1 (Context_flatten_accumulates 2 3 DictStateMonad (VRef 2)
                    (VRef 0) [2%nat] (VInt 7) (VRef 4) st_ctx st2
                    E nest_st_ctx L R)).
  - split; [| split]; vm_compute; reflexivity.
Defined.

Lemma flatten_in_place_bind_new_witness :
  let st1 := upd 2 (OMaybe (VInt 5)) st_maybe in
  heap st_maybe !! 1%nat = Some (OMaybe (VRef 0))
  /\ nest (heap st_maybe) Maybe (VRef 0) [0%nat] (VInt 5)
  /\ flatten 2 1 st_maybe = (Ok (VRef 1), upd 1 (OMaybe (VInt 5)) st_maybe)
  /\ (flattened 2 Maybe 1 st_maybe
      = (Ok (VRef 2), upd 2 (OMaybe (VInt 5)) (upd 2 (OMaybe (VRef 0)) st_maybe))
      /\ 2%nat <> 1%nat
      /\ extends st_maybe
           (upd 2 (OMaybe (VInt 5)) (upd 2 (OMaybe (VRef 0)) st_maybe)))
  /\ (call client_succ 2 1 (VUnit Maybe) (VRef 0) st_maybe = (Ok (VRef 2), st1)
      /\ bind client_succ 2 1 1 (VUnit Maybe) st_maybe
         = (Ok (VRef 3), upd 3 (OMaybe (VInt 5)) st1)
      /\ 3%nat <> 1%nat
      /\ extends st1 (upd 3 (OMaybe (VInt 5)) st1)).
Proof.
  intros st1.
  assert (E : heap st_maybe !! 1%nat = Some (OMaybe (VRef 0)))
    by (vm_compute; reflexivity).
  assert (L : length [0%nat] < 2) by (cbn; lia).
  destruct (flatten_in_place_bind_new client_succ 2 1 1 (OMaybe (VRef 0)) Maybe
              (VRef 0) [0%nat] (VInt 5) st_maybe E eq_refl eq_refl
              nest_st_maybe L) as (Hflatten & Hflattened & Hbind).
  split; [exact E |]. split; [exact nest_st_maybe |]. split; [| split].
  - exact (Hflatten VNone st_maybe eq_refl).
  - exact (Hflattened VNone (upd 2 (OMaybe (VRef 0)) st_maybe) eq_refl).
  - assert (Hc : call client_succ 2 1 (VUnit Maybe) (VRef 0) st_maybe
                 = (Ok (VRef 2), st1)) by (vm_compute; reflexivity).
    assert (E1 : heap st1 !! 1%nat = Some (OMaybe (VRef 0)))
      by (vm_compute; reflexivity).
    assert (N1 : nest (heap st1) Maybe (VRef 2) [2%nat] (VInt 5)).
    { apply (nest_cons _ _ 2%nat (OMaybe (VInt 5)) Maybe (VInt 5) [] (VInt 5));
        [vm_compute; reflexivity | reflexivity | reflexivity | reflexivity |].
      constructor. exact I. }
    split; [exact Hc |].
    exact (Hbind eq_refl (VUnit Maybe) (VRef 2) st1 [2%nat] (VInt 5) Hc E1 N1 L).
Defined.

(** Three nested [DictStateMonad]s cannot be flattened: the second addition
    has the plain dict of the first on its left. *)
Lemma flatten_three_DictState_layers_raises :
  (flatten 3 5 st_ctx3).1
  = Raise (TypeError "unsupported operand type(s) for +").
Proof. vm_compute. reflexivity. Qed.

(** C9 as stated fails for [bind]: on [Just(5)] at 0 it returns the new
    object at 2, not the receiver, and the receiver still holds 5. *)
Lemma bind_returns_new_object :
  (bind client_succ 1 1 0 (VFun 0) st_maybe).1 = Ok (VRef 2)
  /\ (bind client_succ 1 1 0 (VFun 0) st_maybe).1 <> Ok (VRef 0)
  /\ heap (bind client_succ 1 1 0 (VFun 0) st_maybe).2 !! 0%nat
     = Some (OMaybe (VInt 5))
  /\ heap (bind client_succ 1 1 0 (VFun 0) st_maybe).2 !! 2%nat
     = Some (OMaybe (VInt 6)).
Proof.
  assert (E : (bind client_succ 1 1 0 (VFun 0) st_maybe).1 = Ok (VRef 2))
    by (vm_compute; reflexivity).
  split; [exact E |]. split; [rewrite E; discriminate |].
  split; vm_compute; reflexivity.
Qed.

End MonadSpec.

(** ** DictTree: navigation and updates *)

Module DictTreeMore.
Import DictTree DictTreeSpec.

Implicit Types (h : heap) (path : PosixPath.t).

Lemma setitem_eq self key value h :
  setitem self key value h
  = (Ok tt,
     let h1 := match value with
               | VTree c => <[c := Node (Some self) (items (h !!! c))]> h
               | _ => h
               end in
     <[self := Node (_parent (h1 !!! self))
                 (<[key := value]> (items (h1 !!! self)))]> h1).
Proof. unfold setitem. destruct value; reflexivity. Qed.

Lemma fresh_not_allocated h l : is_Some (h !! l) -> fresh (dom h) <> l.
Proof.
  intros [n E] N. pose proof (is_fresh (dom h)) as F. rewrite N in F.
  apply F. now apply elem_of_dom.
Qed.

Lemma attach_effect self key kwargs h :
  is_Some (h !! self) ->
  exists h',
    let c := fresh (dom h) in
    attach self key kwargs h = (Ok c, h')
    /\ h !! c = None
    /\ c <> self
    /\ h' !!! c = Node (Some self) kwargs
    /\ _parent (h' !!! self) = _parent (h !!! self)
    /\ items (h' !!! self) !! key = Some (VTree c)
    /\ (forall k, k <> key -> items (h' !!! self) !! k = items (h !!! self) !! k)
    /\ (forall l, l <> self -> l <> c -> h' !! l = h !! l).
Proof.
  intros Hs. set (c := fresh (dom h)).
  assert (Hc : c <> self) by (apply fresh_not_allocated, Hs).
  assert (Hn : h !! c = None) by (apply not_elem_of_dom, is_fresh).
  set (h1 := <[c := Node None kwargs]> h).
  set (h2 := <[c := Node (Some self) (items (h1 !!! c))]> h1).
  exists (<[self := Node (_parent (h2 !!! self))
                     (<[key := VTree c]> (items (h2 !!! self)))]> h2).
  assert (E2c : h2 !!! c = Node (Some self) kwargs).
  { unfold h2, h1. now rewrite !lookup_total_insert_eq. }
  assert (E2s : h2 !!! self = h !!! self).
  { unfold h2, h1. now rewrite !lookup_total_insert_ne by exact Hc. }
  cbn zeta. split.
  { unfold attach, alloc. fold c. unfold mbind at 1. unfold M_bind at 1.
    fold h1. unfold mbind at 1. unfold M_bind at 1. now rewrite setitem_eq. }
  split; [exact Hn |]. split; [exact Hc |].
  split; [| split; [| split; [| split]]].
  - rewrite lookup_total_insert_ne by congruence. exact E2c.
  - rewrite lookup_total_insert_eq. cbn [_parent]. now rewrite E2s.
  - rewrite lookup_total_insert_eq. cbn [items]. apply lookup_insert_eq.
  - intros k Hk. rewrite lookup_total_insert_eq. cbn [items].
    rewrite lookup_insert_ne by congruence. now rewrite E2s.
  - intros l Hl Hlc. unfold h2, h1. now rewrite !lookup_insert_ne by congruence.
Qed.

(** X1: [attach] on an existing node: the child is a new object built from the
    keyword arguments, its parent is the receiver, the receiver holds it
    under [key], and nothing else changes. *)
Theorem attach_new_child self key kwargs h :
  is_Some (h !! self) ->
  exists h',
    let c := fresh (dom h) in
    attach self key kwargs h = (Ok c, h')
    /\ h !! c = None
    /\ parent c h' = (Ok (VTree self), h')
    /\ get self key h' = (Ok (VTree c), h')
    /\ items (h' !!! c) = kwargs
    /\ _parent (h' !!! self) = _parent (h !!! self)
    /\ (forall k, k <> key -> items (h' !!! self) !! k = items (h !!! self) !! k)
    /\ (forall l, l <> self -> l <> c -> h' !! l = h !! l).
Proof.
  intros Hs.
  destruct (attach_effect self key kwargs h Hs)
    as (h' & E & Hn & Hc & Ec & Hp & Hk & Hks & Hl).
  exists h'. cbn zeta in *.
  split; [exact E |]. split; [exact Hn |].
  split; [now rewrite parent_eq, Ec |].
  split; [now rewrite get_eq, Hk |].
  split; [now rewrite Ec |].
  split; [exact Hp |]. split; [exact Hks | exact Hl].
Qed.

Lemma attach_new_child_witness :
  is_Some (h_single !! 0%nat)
  /\ exists h',
      let c := fresh (dom h_single) in
      attach 0 "x" ∅ h_single = (Ok c, h')
      /\ h_single !! c = None
      /\ parent c h' = (Ok (VTree 0), h')
      /\ get 0 "x" h' = (Ok (VTree c), h')
      /\ items (h' !!! c) = ∅
      /\ _parent (h' !!! 0%nat) = _parent (h_single !!! 0%nat)
      /\ (forall k, k <> "x" ->
                    items (h' !!! 0%nat) !! k = items (h_single !!! 0%nat) !! k)
      /\ (forall l, l <> 0%nat -> l <> c -> h' !! l = h_single !! l).
Proof.
  assert (Hs : is_Some (h_single !! 0%nat)) by (vm_compute; eauto).
  split; [exact Hs |]. exact (attach_new_child 0 "x" ∅ h_single Hs).
Defined.

Lemma setitem_tree_effect q key c h :
  exists h',
    setitem q key (VTree c) h = (Ok tt, h')
    /\ _parent (h' !!! c) = Some q
    /\ items (h' !!! q) !! key = Some (VTree c)
    /\ (forall p, p <> q -> items (h' !!! p) = items (h !!! p))
    /\ (forall p, p <> c -> _parent (h' !!! p) = _parent (h !!! p)).
Proof.
  eexists. split; [apply setitem_eq |]. cbn zeta.
  split; [| split; [| split]].
  - destruct (decide (q = c)) as [-> | N].
    + rewrite !lookup_total_insert_eq. reflexivity.
    + rewrite lookup_total_insert_ne by exact N.
      now rewrite lookup_total_insert_eq.
  - rewrite lookup_total_insert_eq. cbn [items]. apply lookup_insert_eq.
  - intros p Hp. rewrite lookup_total_insert_ne by congruence.
    destruct (decide (c = p)) as [-> | N].
    + now rewrite lookup_total_insert_eq.
    + now rewrite lookup_total_insert_ne by exact N.
  - intros p Hp. destruct (decide (q = p)) as [-> | N].
    + rewrite lookup_total_insert_eq. cbn [_parent].
      now rewrite lookup_total_insert_ne by congruence.
    + rewrite lookup_total_insert_ne by exact N.
      now rewrite lookup_total_insert_ne by congruence.
Qed.

(** X2: [__setitem__] with a tree that another node [p] already holds: the
    tree's parent becomes the receiver, the receiver holds it under [key],
    and [p] keeps holding it: the tree is then found in two nodes and names
    the later one as its parent. *)
Theorem setitem_steals_child p k0 q key c h :
  p <> q ->
  items (h !!! p) !! k0 = Some (VTree c) ->
  exists h',
    setitem q key (VTree c) h = (Ok tt, h')
    /\ _parent (h' !!! c) = Some q
    /\ items (h' !!! q) !! key = Some (VTree c)
    /\ items (h' !!! p) !! k0 = Some (VTree c).
Proof.
  intros N Hp.
  destruct (setitem_tree_effect q key c h) as (h' & E & Hc & Hq & Hit & _).
  exists h'. split; [exact E |]. split; [exact Hc |]. split; [exact Hq |].
  now rewrite Hit.
Qed.

Lemma setitem_steals_child_witness :
  0%nat <> 2%nat
  /\ items (h_nested !!! 0%nat) !! "a" = Some (VTree 1)
  /\ exists h',
      setitem 2 "z" (VTree 1) h_nested = (Ok tt, h')
      /\ _parent (h' !!! 1%nat) = Some 2%nat
      /\ items (h' !!! 2%nat) !! "z" = Some (VTree 1)
      /\ items (h' !!! 0%nat) !! "a" = Some (VTree 1).
Proof.
  assert (N : 0%nat <> 2%nat) by discriminate.
  assert (Hp : items (h_nested !!! 0%nat) !! "a" = Some (VTree 1))
    by (vm_compute; reflexivity).
  split; [exact N |]. split; [exact Hp |].
  exact (setitem_steals_child 0 "a" 2 "z" 1 h_nested N Hp).
Defined.

(** X3: [insert_at] stores the value and rewires nothing: every [_parent] is as
    before, also that of a tree given as value. *)
Theorem insert_at_keeps_parents self value key h :
  exists h',
    insert_at self value key h = (Ok VNone, h')
    /\ items (h' !!! self) !! key = Some value
    /\ (forall l, _parent (h' !!! l) = _parent (h !!! l))
    /\ (forall l, l <> self -> items (h' !!! l) = items (h !!! l)).
Proof.
  eexists. split; [reflexivity |]. split; [| split].
  - rewrite lookup_total_insert_eq. cbn [items]. apply lookup_insert_eq.
  - intros l. destruct (decide (self = l)) as [-> | N].
    + now rewrite lookup_total_insert_eq.
    + now rewrite lookup_total_insert_ne by exact N.
  - intros l Hl. now rewrite lookup_total_insert_ne by congruence.
Qed.


(** *** [root] and [up] *)

(** X4: Whatever [root] returns is a node without a parent or with itself as
    parent, and [root] from it returns it again. *)
Theorem root_is_fixed_point fuel : forall t r h h',
  root fuel t h = (Ok r, h') ->
  (_parent (h !!! r) = None \/ _parent (h !!! r) = Some r)
  /\ forall fuel', 0 < fuel' -> root fuel' r h = (Ok r, h).
Proof.
  induction fuel as [| k IH]; intros t r h h' E; [discriminate |].
  cbn [root] in E. erewrite bind_ok in E by apply parent_eq.
  assert (Hfix : forall x, _parent (h !!! x) = None \/ _parent (h !!! x) = Some x ->
                 forall fuel', 0 < fuel' -> root fuel' x h = (Ok x, h)).
  { intros x Hx [| k'] Hlt; [lia |]. cbn [root].
    erewrite bind_ok by apply parent_eq.
    destruct Hx as [-> | ->]; [reflexivity | now rewrite decide_True]. }
  destruct (_parent (h !!! t)) as [p |] eqn:Hp.
  - destruct (decide (p = t)) as [-> | N].
    + injection E as <- <-. split; [now right | apply Hfix; now right].
    + eapply IH, E.
  - injection E as <- <-. split; [now left | apply Hfix; now left].
Qed.

Lemma root_is_fixed_point_witness :
  root 2 1 h_nested = (Ok 0%nat, h_nested)
  /\ (_parent (h_nested !!! 0%nat) = None
      \/ _parent (h_nested !!! 0%nat) = Some 0%nat)
  /\ forall fuel', 0 < fuel' -> root fuel' 0 h_nested = (Ok 0%nat, h_nested).
Proof.
  assert (E : root 2 1 h_nested = (Ok 0%nat, h_nested)) by (vm_compute; reflexivity).
  split; [exact E |]. exact (root_is_fixed_point 2 1 0 h_nested h_nested E).
Defined.

(** Two nodes that are each other's parent: [root] never returns from
    either; whatever the fuel, it runs out. *)
Lemma root_two_cycle a b h :
  a <> b -> _parent (h !!! a) = Some b -> _parent (h !!! b) = Some a ->
  forall fuel, root fuel a h = (OutOfFuel, h) /\ root fuel b h = (OutOfFuel, h).
Proof.
  intros N Ha Hb fuel. induction fuel as [| k [IHa IHb]]; [now split |].
  cbn [root]. rewrite !(bind_ok _ _ _ _ _ (parent_eq _ _)), Ha, Hb.
  rewrite !decide_False by congruence. now split.
Qed.

(** X5: Such a cycle comes from two assignments: after [a[x] = b; b[y] = a],
    [a.root()] does not terminate. *)
Theorem root_diverges_after_mutual_assignment a b x y h fuel :
  a <> b ->
  ((setitem a x (VTree b);; setitem b y (VTree a);; root fuel a) h).1
  = OutOfFuel.
Proof.
  intros N.
  destruct (setitem_tree_effect a x b h) as (h1 & E1 & Hb1 & _ & _ & _).
  destruct (setitem_tree_effect b y a h1) as (h2 & E2 & Ha2 & _ & _ & Hp2).
  assert (Hb2 : _parent (h2 !!! b) = Some a).
  { rewrite Hp2 by congruence. exact Hb1. }
  mok by exact E1. mok by exact E2.
  now rewrite (proj1 (root_two_cycle a b h2 N Ha2 Hb2 fuel)).
Qed.

Lemma root_diverges_after_mutual_assignment_witness :
  0%nat <> 1%nat
  /\ forall fuel,
       ((setitem 0 "x" (VTree 1);; setitem 1 "y" (VTree 0);; root fuel 0)
          h_nested).1 = OutOfFuel.
Proof.
  assert (N : 0%nat <> 1%nat) by discriminate.
  split; [exact N |]. intros fuel.
  exact (root_diverges_after_mutual_assignment 0 1 "x" "y" h_nested fuel N).
Defined.

Lemma up_loop_heap n : forall t h, (up_loop n t h).2 = h.
Proof.
  induction n as [| k IH]; intros t h; [reflexivity |].
  cbn [up_loop]. erewrite bind_ok by apply parent_eq.
  destruct (_parent (h !!! t)) as [p |]; [| reflexivity].
  destruct (decide (p = t)); [reflexivity | apply IH].
Qed.

Lemma up_loop_reaches_root h t n r :
  root_at h t n r -> forall k, n <= k -> up_loop k t h = (Ok r, h).
Proof.
  induction 1 as [r Hr | t p n r Hp Hne _ IH]; intros k Hle.
  - destruct k as [| k]; [reflexivity |]. cbn [up_loop].
    erewrite bind_ok by apply parent_eq.
    destruct Hr as [-> | ->]; [reflexivity | now rewrite decide_True].
  - destruct k as [| k]; [lia |]. cbn [up_loop].
    erewrite bind_ok by apply parent_eq.
    rewrite Hp, decide_False by exact Hne. apply IH. lia.
Qed.

(** X6: From a node [n] levels below its root, [up] with at least [n] levels,
    or with a negative number, returns the root: [up] never goes past
    it.  [up(0)] is the receiver. *)
Theorem up_stops_at_root fuel h t n r z :
  root_at h t n r -> n < fuel ->
  ((z < 0)%Z \/ (Z.of_nat n <= z)%Z) ->
  up fuel t z h = (Ok r, h) /\ up fuel t 0 h = (Ok t, h).
Proof.
  intros Hroot Hlt Hz. split; [| reflexivity]. unfold up.
  destruct (z <? 0)%Z eqn:Ez.
  - eapply root_spec; eassumption.
  - apply Z.ltb_ge in Ez. eapply up_loop_reaches_root; [exact Hroot | lia].
Qed.

Lemma root_at_h_nested : root_at h_nested 1 1 0.
Proof.
  apply (root_up _ 1 0 0 0); [vm_compute; reflexivity | discriminate |].
  constructor. left. vm_compute. reflexivity.
Defined.

Lemma up_stops_at_root_witness :
  root_at h_nested 1 1 0
  /\ 1 < 2
  /\ up 2 1 5 h_nested = (Ok 0%nat, h_nested)
  /\ up 2 1 (-1) h_nested = (Ok 0%nat, h_nested)
  /\ up 2 1 0 h_nested = (Ok 1%nat, h_nested).
Proof.
  assert (L : 1 < 2) by lia.
  assert (Z5 : (5 < 0)%Z \/ (Z.of_nat 1 <= 5)%Z) by (right; lia).
  assert (Zm : (-1 < 0)%Z \/ (Z.of_nat 1 <= -1)%Z) by (left; lia).
  split; [exact root_at_h_nested |]. split; [exact L |].
  split; [| split].
  - exact (proj1 (up_stops_at_root 2 h_nested 1 1 0 5 root_at_h_nested L Z5)).
  - exact (proj1 (up_stops_at_root 2 h_nested 1 1 0 (-1) root_at_h_nested L Zm)).
  - exact (proj2 (up_stops_at_root 2 h_nested 1 1 0 5 root_at_h_nested L Z5)).
Defined.

Lemma up_loop_S k t h :
  up_loop (S k) t h
  = match _parent (h !!! t) with
    | Some p => if decide (p = t) then (Ok t, h) else up_loop k p h
    | None => (Ok t, h)
    end.
Proof.
  cbn [up_loop]. erewrite bind_ok by apply parent_eq.
  destruct (_parent (h !!! t)) as [p |]; [| reflexivity].
  now destruct (decide (p = t)).
Qed.

Lemma up_loop_at_root x h :
  _parent (h !!! x) = None \/ _parent (h !!! x) = Some x ->
  forall k, up_loop k x h = (Ok x, h).
Proof.
  intros Hx [| k]; [reflexivity |]. rewrite up_loop_S.
  destruct Hx as [-> | ->]; [reflexivity | now rewrite decide_True].
Qed.

Lemma up_loop_add a : forall b t h,
  up_loop (a + b) t h = (x ← up_loop a t; up_loop b x) h.
Proof.
  induction a as [| a IH]; intros b t h; [reflexivity |].
  cbn [Nat.add]. unfold mbind, M_bind. rewrite !up_loop_S.
  destruct (_parent (h !!! t)) as [p |] eqn:Hp.
  - destruct (decide (p = t)) as [-> | N].
    + symmetry. apply up_loop_at_root. now right.
    + apply IH.
  - symmetry. apply up_loop_at_root. now left.
Qed.

(** X7: Going up [a] levels and then [b] more is going up [a + b] levels. *)
Theorem up_add fuel t a b h :
  (0 <= a)%Z -> (0 <= b)%Z ->
  up fuel t (a + b) h = (x ← up fuel t a; up fuel x b) h.
Proof.
  intros Ha Hb. unfold up.
  rewrite (proj2 (Z.ltb_ge (a + b) 0)) by lia.
  rewrite (proj2 (Z.ltb_ge a 0)) by lia.
  rewrite (proj2 (Z.ltb_ge b 0)) by lia.
  rewrite Z2Nat.inj_add by lia. apply up_loop_add.
Qed.

Lemma up_add_witness :
  (0 <= 1)%Z /\ (0 <= 2)%Z
  /\ up 0 1 (1 + 2) h_nested = (x ← up 0 1 1; up 0 x 2) h_nested.
Proof.
  assert (Ha : (0 <= 1)%Z) by lia. assert (Hb : (0 <= 2)%Z) by lia.
  split; [exact Ha |]. split; [exact Hb |].
  exact (up_add 0 1 1 2 h_nested Ha Hb).
Defined.

(** *** [down] *)

Lemma down_loop_cons k ks t h :
  down_loop (k :: ks) t h
  = match default VNone (items (h !!! t) !! k) with
    | VTree l => down_loop ks l h
    | v => (Ok v, h)
    end.
Proof.
  cbn [down_loop]. erewrite bind_ok by apply get_eq.
  now destruct (default VNone (items (h !!! t) !! k)).
Qed.

Lemma down_loop_app ks1 : forall ks2 t h,
  down_loop (ks1 ++ ks2) t h
  = (v ← down_loop ks1 t;
     match v with VTree l => down_loop ks2 l | _ => mret v end) h.
Proof.
  induction ks1 as [| k ks1 IH]; intros ks2 t h; [reflexivity |].
  cbn [app]. unfold mbind, M_bind. rewrite !down_loop_cons.
  destruct (default VNone (items (h !!! t) !! k)); try reflexivity.
  apply IH.
Qed.

Lemma down_loop_total ks : forall t h, exists v, down_loop ks t h = (Ok v, h).
Proof.
  induction ks as [| k ks IH]; intros t h; [now eexists |].
  rewrite down_loop_cons.
  destruct (default VNone (items (h !!! t) !! k)); eauto.
Qed.

(** X8: [down] never raises and changes nothing, whatever the keys. *)
Theorem down_never_raises self keys h :
  exists v, down self keys h = (Ok v, h).
Proof. apply down_loop_total. Qed.

(** X9: Once the keys [ks1] lead to [None] or to a leaf, that is the result of
    [down] whatever keys follow. *)
Theorem down_stops_at_leaf self ks1 ks2 h v :
  down self ks1 h = (Ok v, h) ->
  (forall l, v <> VTree l) ->
  down self (ks1 ++ ks2) h = (Ok v, h).
Proof.
  intros E Hv. unfold down in *. rewrite down_loop_app.
  mok by exact E. destruct v; try reflexivity. now destruct (Hv l).
Qed.

Lemma down_stops_at_leaf_witness :
  down 0 ["a"; "b"] h_nested = (Ok (VInt 7), h_nested)
  /\ (forall l, VInt 7 <> VTree l)
  /\ down 0 (["a"; "b"] ++ ["c"; "d"]) h_nested = (Ok (VInt 7), h_nested).
Proof.
  assert (E : down 0 ["a"; "b"] h_nested = (Ok (VInt 7), h_nested))
    by (vm_compute; reflexivity).
  assert (Ht : forall l, VInt 7 <> VTree l) by discriminate.
  split; [exact E |]. split; [exact Ht |].
  exact (down_stops_at_leaf 0 ["a"; "b"] ["c"; "d"] h_nested (VInt 7) E Ht).
Defined.

(** *** The walk: read-only, and stopped by a leaf *)

Lemma walk_step_heap p i part node h :
  (walk_step p false None i part node h).2 = h.
Proof.
  destruct node; cbn [walk_step]; try reflexivity.
  destruct (decide (part = PosixPath.pardir)); reflexivity.
Qed.

Lemma walk_parts_heap p ps : forall i node h,
  (walk_parts p false None i ps node h).2 = h.
Proof.
  induction ps as [| part ps IH]; intros i node h; [reflexivity |].
  cbn [walk_parts]. destruct (decide (part = PosixPath.root p)); [apply IH |].
  unfold mbind, M_bind.
  pose proof (walk_step_heap p i part node h) as Hs.
  destruct (walk_step p false None i part node h) as [[v | e |] h1];
    cbn in Hs; subst; try reflexivity.
  pose proof (IH (S i) v h) as Hw.
  destruct (walk_parts p false None (S i) ps v h) as [[zs | e |] h2];
    cbn in Hw; subst; reflexivity.
Qed.

(** X10: [get_at_path] never changes the store, whatever it returns or raises
    and whatever [ensure_exists] is: it creates no node. *)
Theorem get_at_path_read_only fuel t path ensure_exists h :
  (get_at_path fuel t path ensure_exists h).2 = h.
Proof.
  unfold get_at_path, _walk_path, mbind, M_bind.
  assert (Hn : ((if PosixPath.is_absolute path then VTree <$> root fuel t
                 else mret (VTree t)) h).2 = h).
  { destruct (PosixPath.is_absolute path); [| reflexivity].
    unfold fmap, M_fmap. pose proof (root_heap fuel t h) as Hr.
    now destruct (root fuel t h) as [[r | e |] h1]. }
  destruct ((if PosixPath.is_absolute path then VTree <$> root fuel t
             else mret (VTree t)) h) as [[node | e |] h1];
    cbn in Hn; subst; try reflexivity.
  pose proof (walk_parts_heap path (PosixPath.parts path) 0 node h) as Hw.
  destruct (walk_parts path false None 0 (PosixPath.parts path) node h)
    as [[zs | e |] h2]; cbn in Hw; subst; try reflexivity.
  cbn [mret M_ret]. now destruct (last (node :: zs)).
Qed.

(** X11: When the walk along the segments [pre] ends on a leaf (an int or a str)
    and a segment [k] follows, [get_at_path] raises [ValueError]; the path
    in the message is the prefix with [k] added, not the path of the leaf.
    The store is left as it was. *)
Theorem get_at_path_through_leaf fuel t rt pre k rest ensure_exists h h' v :
  PosixPath.wf_path (PosixPath.mk rt (pre ++ k :: rest)) ->
  get_at_path fuel t (PosixPath.mk rt pre) false h = (Ok v, h') ->
  v <> VNone -> (forall l, v <> VTree l) ->
  get_at_path fuel t (PosixPath.mk rt (pre ++ k :: rest)) ensure_exists h
  = (Raise (ValueError ("Node at path "
                          ++ PosixPath.to_string (PosixPath.mk rt (pre ++ [k]))
                          ++ " is a leaf")), h).
Proof.
  intros Hwf Hpre Hnone Htree.
  set (q := PosixPath.mk rt pre) in *.
  set (p := PosixPath.mk rt (pre ++ k :: rest)) in *.
  assert (Hqk : PosixPath.wf_path (PosixPath.mk rt (pre ++ [k]))).
  { apply (wf_path_prefix rt (pre ++ [k]) rest). now rewrite <- app_assoc. }
  assert (Hk : k <> rt) by (eapply wf_path_key_not_root; exact Hwf).
  destruct (get_at_path_inv _ _ _ _ _ _ _ Hpre) as (node & zs & Hn & Hw & El & ->).
  pose proof (walk_parts_ok q p _ 0 0 _ _ _ _ eq_refl Hw) as [_ Hwp].
  unfold get_at_path, _walk_path.
  change (PosixPath.is_absolute p) with (PosixPath.is_absolute q).
  apply bind_raise. erewrite bind_ok by exact Hn. apply bind_raise.
  unfold p at 2. rewrite parts_app. change (PosixPath.mk rt pre) with q.
  rewrite (walk_parts_app p _ (k :: rest) _ _ _ _ Hwp), El.
  apply bind_raise. cbn [walk_parts]. change (PosixPath.root p) with rt.
  rewrite decide_False by exact Hk. apply bind_raise.
  assert (Hmsg : leaf_msg p (0 + length (PosixPath.parts q))
                 = "Node at path "
                     ++ PosixPath.to_string (PosixPath.mk rt (pre ++ [k]))
                     ++ " is a leaf").
  { unfold leaf_msg. unfold p.
    replace (pre ++ k :: rest)%list with ((pre ++ [k]) ++ rest)%list
      by now rewrite <- app_assoc.
    rewrite parts_app.
    replace (0 + length (PosixPath.parts q) + 1)
      with (length (PosixPath.parts (PosixPath.mk rt (pre ++ [k])))).
    - now rewrite take_app_length, joinpath_parts by exact Hqk.
    - rewrite parts_app, length_app. cbn. unfold q. lia. }
  destruct v as [| z | s | l]; cbn [walk_step];
    [congruence | now rewrite Hmsg | now rewrite Hmsg | now destruct (Htree l)].
Qed.

Lemma get_at_path_through_leaf_witness :
  PosixPath.wf_path (PosixPath.mk "/" (["a"; "b"] ++ "c" :: []))
  /\ get_at_path 1 0 (PosixPath.mk "/" ["a"; "b"]) false h_nested
     = (Ok (VInt 7), h_nested)
  /\ VInt 7 <> VNone /\ (forall l, VInt 7 <> VTree l)
  /\ get_at_path 1 0 (PosixPath.PurePosixPath "/a/b/c") false h_nested
     = (Raise (ValueError "Node at path /a/b/c is a leaf"), h_nested).
Proof.
  assert (Hwf : PosixPath.wf_path (PosixPath.mk "/" (["a"; "b"] ++ "c" :: []))).
  { split; [right; left; reflexivity | repeat constructor]. }
  assert (Hpre : get_at_path 1 0 (PosixPath.mk "/" ["a"; "b"]) false h_nested
                 = (Ok (VInt 7), h_nested)) by (vm_compute; reflexivity).
  assert (Hn : VInt 7 <> VNone) by discriminate.
  assert (Ht : forall l, VInt 7 <> VTree l) by discriminate.
  split; [exact Hwf |]. split; [exact Hpre |]. split; [exact Hn |].
  split; [exact Ht |].
  exact (get_at_path_through_leaf 1 0 "/" ["a"; "b"] "c" [] false
           h_nested h_nested (VInt 7) Hwf Hpre Hn Ht).
Defined.

(** *** [get_at_path] against [down], and after [set_at_path] *)

(** A walk cannot go on from [None] or from a leaf. *)
Lemma walk_parts_from_non_tree p ps : forall i v h zs h',
  (forall l, v <> VTree l) ->
  Forall (fun k => k <> PosixPath.root p) ps ->
  walk_parts p false None i ps v h = (Ok zs, h') ->
  ps = [].
Proof.
  intros i v h zs h' Hv Hf Hw. destruct ps as [| k ps]; [reflexivity |].
  inversion Hf as [| ? ? Hk Hf']; subst. cbn [walk_parts] in Hw.
  rewrite decide_False in Hw by exact Hk.
  apply bind_inv_ok in Hw as (v' & h1 & Hs & _).
  destruct v as [| z | s | l]; cbn in Hs; try discriminate.
  now destruct (Hv l).
Qed.

Lemma walk_parts_down p ps : forall i l h zs h',
  Forall (fun k => k <> PosixPath.root p /\ k <> PosixPath.pardir) ps ->
  walk_parts p false None i ps (VTree l) h = (Ok zs, h') ->
  down_loop ps l h = (Ok (List.last zs (VTree l)), h).
Proof.
  induction ps as [| k ps IH]; intros i l h zs h' Hf Hw.
  - cbn in Hw. now injection Hw as <- _.
  - inversion Hf as [| ? ? [Hk Hp] Hf']; subst. cbn [walk_parts] in Hw.
    rewrite decide_False in Hw by exact Hk.
    apply bind_inv_ok in Hw as (v & h1 & Hs & Hw).
    cbn [walk_step] in Hs. rewrite decide_False in Hs by exact Hp.
    rewrite get_eq in Hs. injection Hs as <- <-.
    apply bind_inv_ok in Hw as (zs' & h2 & Hw & Hret).
    injection Hret as <- <-. rewrite down_loop_cons, last_cons_shift.
    destruct (default VNone (items (h !!! l) !! k)) as [| z | s | l'] eqn:Ev.
    4: { eapply IH; eassumption. }
    all: assert (ps = []) as ->
        by (eapply walk_parts_from_non_tree; [| | exact Hw];
            [discriminate | eapply Forall_impl; [exact Hf' | now intros ? []]]);
      cbn in Hw; now injection Hw as <- _.
Qed.

(** X12: Where [get_at_path] resolves a relative path of plain keys (none empty,
    none [".."]), [down] with the same keys returns the same value. *)
Theorem get_at_path_agrees_with_down fuel t ks ensure_exists h h' v :
  Forall (fun k => k <> "" /\ k <> PosixPath.pardir) ks ->
  get_at_path fuel t (PosixPath.mk "" ks) ensure_exists h = (Ok v, h') ->
  down t ks h = (Ok v, h).
Proof.
  intros Hf Hget.
  destruct (get_at_path_inv _ _ _ _ _ _ _ Hget) as (node & zs & Hn & Hw & El & ->).
  cbn in Hn. injection Hn as <-. subst v. unfold down.
  eapply (walk_parts_down (PosixPath.mk "" ks)); [exact Hf | exact Hw].
Qed.

Lemma get_at_path_agrees_with_down_witness :
  Forall (fun k => k <> "" /\ k <> PosixPath.pardir) ["a"; "b"]
  /\ get_at_path 0 0 (PosixPath.PurePosixPath "a/b") false h_nested
     = (Ok (VInt 7), h_nested)
  /\ down 0 ["a"; "b"] h_nested = (Ok (VInt 7), h_nested).
Proof.
  assert (Hf : Forall (fun k => k <> "" /\ k <> PosixPath.pardir) ["a"; "b"])
    by (repeat constructor; discriminate).
  assert (Hg : get_at_path 0 0 (PosixPath.mk "" ["a"; "b"]) false h_nested
               = (Ok (VInt 7), h_nested)) by (vm_compute; reflexivity).
  split; [exact Hf |]. split; [exact Hg |].
  exact (get_at_path_agrees_with_down 0 0 ["a"; "b"] false h_nested h_nested
           (VInt 7) Hf Hg).
Defined.

Lemma setitem_frame q key value h :
  exists h',
    setitem q key value h = (Ok tt, h')
    /\ items (h' !!! q) !! key = Some value
    /\ (forall l k, k <> key -> items (h' !!! l) !! k = items (h !!! l) !! k)
    /\ ((forall c, value <> VTree c) ->
        forall x, _parent (h' !!! x) = _parent (h !!! x)).
Proof.
  eexists. split; [apply setitem_eq |]. cbn zeta.
  set (h1 := match value with
             | VTree c => <[c := Node (Some q) (items (h !!! c))]> h
             | _ => h
             end).
  assert (Hi : forall l, items (h1 !!! l) = items (h !!! l)).
  { intros l. unfold h1. destruct value as [| | | c]; try reflexivity.
    destruct (decide (c = l)) as [-> | N].
    - now rewrite lookup_total_insert_eq.
    - now rewrite lookup_total_insert_ne by exact N. }
  split; [| split].
  - rewrite lookup_total_insert_eq. cbn [items]. apply lookup_insert_eq.
  - intros l k Hk. destruct (decide (q = l)) as [-> | N].
    + rewrite lookup_total_insert_eq. cbn [items].
      rewrite lookup_insert_ne by congruence. now rewrite Hi.
    + rewrite lookup_total_insert_ne by exact N. now rewrite Hi.
  - intros Hv x.
    assert (h1 = h) as -> by (unfold h1; destruct value; try reflexivity;
                              now destruct (Hv l)).
    destruct (decide (q = x)) as [-> | N].
    + now rewrite lookup_total_insert_eq.
    + now rewrite lookup_total_insert_ne by exact N.
Qed.

Lemma root_frame fuel : forall t h h',
  (forall x, _parent (h' !!! x) = _parent (h !!! x)) ->
  root fuel t h' = ((root fuel t h).1, h').
Proof.
  induction fuel as [| k IH]; intros t h h' Hp; [reflexivity |].
  cbn [root]. rewrite !(bind_ok _ _ _ _ _ (parent_eq _ _)), Hp.
  destruct (_parent (h !!! t)) as [p |]; [| reflexivity].
  destruct (decide (p = t)); [reflexivity | now apply IH].
Qed.

Lemma walk_parts_frame p name ps : forall i node h h' zs,
  (forall l k, k <> name -> items (h' !!! l) !! k = items (h !!! l) !! k) ->
  Forall (fun k => k = PosixPath.root p
                   \/ (k <> PosixPath.pardir /\ k <> name)) ps ->
  walk_parts p false None i ps node h = (Ok zs, h) ->
  walk_parts p false None i ps node h' = (Ok zs, h').
Proof.
  induction ps as [| k ps IH]; intros i node h h' zs Hit Hf Hw.
  - cbn in *. now injection Hw as <-.
  - inversion Hf as [| ? ? Hk Hf']; subst. cbn [walk_parts] in *.
    destruct (decide (k = PosixPath.root p)) as [E | N].
    + eapply IH; eassumption.
    + destruct Hk as [? | [Hpar Hname]]; [contradiction |].
      apply bind_inv_ok in Hw as (v & h1 & Hs & Hw).
      apply bind_inv_ok in Hw as (zs' & h2 & Hw & Hret).
      injection Hret as Ez Eh2. subst zs h2.
      destruct node as [| z | s | l]; cbn [walk_step] in Hs; try discriminate.
      rewrite decide_False in Hs by exact Hpar. rewrite get_eq in Hs.
      injection Hs as Ev Eh. subst v h1.
      cbn [walk_step]. rewrite decide_False by exact Hpar.
      mok by apply get_eq. rewrite (Hit l k Hname).
      mok by (eapply IH; eassumption). reflexivity.
Qed.

Lemma get_at_path_intro fuel t q ensure_exists h node zs :
  (if PosixPath.is_absolute q then VTree <$> root fuel t
   else mret (VTree t)) h = (Ok node, h) ->
  walk_parts q false None 0 (PosixPath.parts q) node h = (Ok zs, h) ->
  get_at_path fuel t q ensure_exists h = (Ok (List.last zs node), h).
Proof.
  intros Hn Hw. unfold get_at_path, _walk_path.
  mok by (mok by exact Hn; mok by exact Hw; reflexivity).
  now rewrite last_cons_default.
Qed.

(** X13: [set_at_path] then [get_at_path]: when the parent path resolves to a
    tree node, the value is stored and the same path then resolves to it.
    The segments are plain keys, the last one occurring only once; a tree
    is stored through a relative path (through an absolute one its new
    parent could move the root). *)
Theorem set_then_get_at_path fuel t (path : string) rt pre name value p h :
  PosixPath.PurePosixPath path = PosixPath.mk rt (pre ++ [name]) ->
  PosixPath.wf_path (PosixPath.mk rt (pre ++ [name])) ->
  Forall (fun k => k <> PosixPath.pardir /\ k <> name) pre ->
  name <> PosixPath.pardir ->
  (rt = "" \/ forall c, value <> VTree c) ->
  get_at_path fuel t (PosixPath.mk rt pre) false h = (Ok (VTree p), h) ->
  exists h',
    set_at_path fuel t path value false h = (Ok VNone, h')
    /\ get_at_path fuel t (PosixPath.PurePosixPath path) false h'
       = (Ok value, h').
Proof.
  intros Hparse Hwf Hpre Hname Hrt Hget.
  destruct (setitem_frame p name value h) as (h' & Eset & Hval & Hit & Hpar).
  exists h'. split.
  - unfold set_at_path. rewrite Hparse. unfold PosixPath.parent, PosixPath.name.
    cbn [PosixPath.root PosixPath.names].
    rewrite List.removelast_last, List.last_last.
    mok by exact Hget. cbn [store_item]. mok by exact Eset. reflexivity.
  - rewrite Hparse.
    assert (Hk : name <> rt)
      by (apply (wf_path_key_not_root rt pre name []); exact Hwf).
    destruct (get_at_path_inv _ _ _ _ _ _ _ Hget) as (node & zs & Hn & Hw & El & _).
    assert (Hn' : (if PosixPath.is_absolute (PosixPath.mk rt pre)
                   then VTree <$> root fuel t else mret (VTree t)) h'
                  = (Ok node, h')).
    { destruct (PosixPath.is_absolute (PosixPath.mk rt pre)) eqn:Ea.
      - destruct Hrt as [-> | Hv]; [discriminate |].
        unfold fmap, M_fmap in *. rewrite (root_frame fuel t h h' (Hpar Hv)).
        destruct (root fuel t h) as [[r | e |] h1]; cbn; now inversion Hn.
      - now injection Hn as <-. }
    assert (Hw' : walk_parts (PosixPath.mk rt pre) false None 0
                    (PosixPath.parts (PosixPath.mk rt pre)) node h'
                  = (Ok zs, h')).
    { eapply (walk_parts_frame _ name); [exact Hit | | exact Hw].
      unfold PosixPath.parts.
      destruct (PosixPath.is_absolute (PosixPath.mk rt pre)).
      - constructor; [now left |].
        eapply Forall_impl; [exact Hpre | intros; now right].
      - eapply Forall_impl; [exact Hpre | intros; now right]. }
    pose proof (get_at_path_intro fuel t _ false h' node zs Hn' Hw') as Hget'.
    rewrite El in Hget'.
    eapply get_at_path_snoc; [exact Hk | exact Hget' |].
    cbn [walk_step]. rewrite decide_False by exact Hname.
    now rewrite get_eq, Hval.
Qed.

Lemma set_then_get_at_path_witness :
  PosixPath.PurePosixPath "/a/c" = PosixPath.mk "/" (["a"] ++ ["c"])
  /\ PosixPath.wf_path (PosixPath.mk "/" (["a"] ++ ["c"]))
  /\ Forall (fun k => k <> PosixPath.pardir /\ k <> "c") ["a"]
  /\ "c" <> PosixPath.pardir
  /\ get_at_path 2 1 (PosixPath.mk "/" ["a"]) false h_nested
     = (Ok (VTree 1), h_nested)
  /\ exists h',
      set_at_path 2 1 "/a/c" (VInt 42) false h_nested = (Ok VNone, h')
      /\ get_at_path 2 1 (PosixPath.PurePosixPath "/a/c") false h'
         = (Ok (VInt 42), h').
Proof.
  assert (Hp : PosixPath.PurePosixPath "/a/c" = PosixPath.mk "/" (["a"] ++ ["c"]))
    by reflexivity.
  assert (Hwf : PosixPath.wf_path (PosixPath.mk "/" (["a"] ++ ["c"])))
    by (split; [right; left; reflexivity | repeat constructor]).
  assert (Hf : Forall (fun k => k <> PosixPath.pardir /\ k <> "c") ["a"])
    by (repeat constructor; discriminate).
  assert (Hn : "c" <> PosixPath.pardir) by discriminate.
  assert (Hv : "/" = "" \/ forall c, VInt 42 <> VTree c) by (right; discriminate).
  assert (Hg : get_at_path 2 1 (PosixPath.mk "/" ["a"]) false h_nested
               = (Ok (VTree 1), h_nested)) by (vm_compute; reflexivity).
  split; [exact Hp |]. split; [exact Hwf |]. split; [exact Hf |].
  split; [exact Hn |]. split; [exact Hg |].
  exact (set_then_get_at_path 2 1 "/a/c" "/" ["a"] "c" (VInt 42) 1 h_nested
           Hp Hwf Hf Hn Hv Hg).
Defined.

(** *** Parents and the nodes that hold their children *)

(** X14: [attach] under a key that holds no tree keeps the trees consistent:
    if every node naming a parent was a value of that parent before, it is
    so afterwards, the new child included. *)
Theorem attach_keeps_parent_consistent self key kwargs h :
  parent_consistent h ->
  is_Some (h !! self) ->
  (forall c, items (h !!! self) !! key <> Some (VTree c)) ->
  parent_consistent (attach self key kwargs h).2.
Proof.
  intros Hcons Hs Hkey.
  destruct (attach_effect self key kwargs h Hs)
    as (h' & E & Hn & Hc & Ec & Hp & Hk & Hks & Hl).
  cbn zeta in *. rewrite E. cbn [snd]. set (c := fresh (dom h)) in *.
  assert (Hother : forall l, l <> self -> l <> c -> h' !!! l = h !!! l).
  { intros l H1 H2. rewrite !lookup_total_alt. now rewrite Hl. }
  assert (Hcitems : items (h !!! c) = ∅).
  { rewrite lookup_total_alt, Hn. reflexivity. }
  intros x p' Hx.
  destruct (decide (x = c)) as [-> | Nxc].
  { rewrite Ec in Hx. injection Hx as <-. now exists key. }
  assert (Hx0 : _parent (h !!! x) = Some p').
  { destruct (decide (x = self)) as [-> | Nxs]; [now rewrite <- Hp |].
    now rewrite <- Hother. }
  destruct (Hcons x p' Hx0) as [k Hk0].
  exists k. destruct (decide (p' = c)) as [-> | Npc].
  { rewrite Hcitems in Hk0. now rewrite lookup_empty in Hk0. }
  destruct (decide (p' = self)) as [-> | Nps].
  - rewrite Hks; [exact Hk0 |]. intros ->. now apply (Hkey x).
  - now rewrite Hother.
Qed.

Lemma parent_consistent_h_nested : parent_consistent h_nested.
Proof.
  intros c p Hp. unfold h_nested in Hp.
  destruct (decide (c = 0%nat)) as [-> | N0].
  { rewrite lookup_total_insert_eq in Hp. discriminate. }
  rewrite lookup_total_insert_ne in Hp by congruence.
  destruct (decide (c = 1%nat)) as [-> | N1].
  { rewrite lookup_total_insert_eq in Hp. injection Hp as <-.
    exists "a". vm_compute. reflexivity. }
  rewrite lookup_total_insert_ne in Hp by congruence.
  destruct (decide (c = 2%nat)) as [-> | N2].
  { rewrite lookup_total_singleton_eq in Hp. discriminate. }
  rewrite lookup_total_singleton_ne in Hp by congruence. discriminate.
Defined.

Lemma attach_keeps_parent_consistent_witness :
  parent_consistent h_nested
  /\ is_Some (h_nested !! 1%nat)
  /\ (forall c, items (h_nested !!! 1%nat) !! "x" <> Some (VTree c))
  /\ parent_consistent (attach 1 "x" ∅ h_nested).2.
Proof.
  assert (Hc : parent_consistent h_nested) by exact parent_consistent_h_nested.
  assert (Hs : is_Some (h_nested !! 1%nat)) by (vm_compute; eauto).
  assert (Hk : forall c, items (h_nested !!! 1%nat) !! "x" <> Some (VTree c))
    by (intros c; vm_compute; discriminate).
  split; [exact Hc |]. split; [exact Hs |]. split; [exact Hk |].
  exact (attach_keeps_parent_consistent 1 "x" ∅ h_nested Hc Hs Hk).
Defined.

(** X15: [attach] under a key that holds a child replaces it and leaves it
    naming the receiver as parent, though the receiver holds it no more
    (when it held it under that key only): the trees are not consistent
    afterwards. *)
Theorem attach_over_child_orphans self key kwargs c0 h :
  is_Some (h !! self) ->
  is_Some (h !! c0) ->
  _parent (h !!! c0) = Some self ->
  (forall k, items (h !!! self) !! k = Some (VTree c0) -> k = key) ->
  let h' := (attach self key kwargs h).2 in
  _parent (h' !!! c0) = Some self
  /\ (forall k, items (h' !!! self) !! k <> Some (VTree c0))
  /\ ~ parent_consistent h'.
Proof.
  intros Hs Hc0 Hpar Honly.
  destruct (attach_effect self key kwargs h Hs)
    as (h' & E & Hn & Hc & Ec & Hp & Hk & Hks & Hl).
  cbn zeta in *. rewrite E. cbn [snd]. set (c := fresh (dom h)) in *.
  assert (Hcc : c <> c0) by (apply fresh_not_allocated, Hc0).
  assert (H1 : _parent (h' !!! c0) = Some self).
  { destruct (decide (c0 = self)) as [-> | N]; [now rewrite Hp |].
    rewrite lookup_total_alt, Hl, <- lookup_total_alt by congruence.
    exact Hpar. }
  assert (H2 : forall k, items (h' !!! self) !! k <> Some (VTree c0)).
  { intros k. destruct (decide (k = key)) as [-> | N].
    - rewrite Hk. congruence.
    - rewrite Hks by exact N. intros Hin. now apply N, Honly. }
  split; [exact H1 |]. split; [exact H2 |].
  intros Hcons. destruct (Hcons c0 self H1) as [k Hin]. now apply (H2 k).
Qed.

Lemma attach_over_child_orphans_witness :
  is_Some (h_nested !! 0%nat)
  /\ is_Some (h_nested !! 1%nat)
  /\ _parent (h_nested !!! 1%nat) = Some 0%nat
  /\ (forall k, items (h_nested !!! 0%nat) !! k = Some (VTree 1) -> k = "a")
  /\ (let h' := (attach 0 "a" ∅ h_nested).2 in
      _parent (h' !!! 1%nat) = Some 0%nat
      /\ (forall k, items (h' !!! 0%nat) !! k <> Some (VTree 1))
      /\ ~ parent_consistent h').
Proof.
  assert (Hs : is_Some (h_nested !! 0%nat)) by (vm_compute; eauto).
  assert (Hc : is_Some (h_nested !! 1%nat)) by (vm_compute; eauto).
  assert (Hp : _parent (h_nested !!! 1%nat) = Some 0%nat)
    by (vm_compute; reflexivity).
  assert (Ho : forall k, items (h_nested !!! 0%nat) !! k = Some (VTree 1) -> k = "a").
  { intros k Hin. destruct (decide (k = "a")) as [-> | N]; [reflexivity |].
    change (items (h_nested !!! 0%nat)) with ({[ "a" := VTree 1 ]} : gmap string val)
      in Hin.
    now rewrite lookup_singleton_ne in Hin by congruence. }
  split; [exact Hs |]. split; [exact Hc |]. split; [exact Hp |].
  split; [exact Ho |].
  exact (attach_over_child_orphans 0 "a" ∅ 1 h_nested Hs Hc Hp Ho).
Defined.

End DictTreeMore.

(** ** The monads: laws and edge cases *)

Module MonadMore.
Import Monad MonadSpec.

Section Facts.
Variable client : nat -> val -> gmap loc obj -> res val * gmap loc obj.
Variables fuel depth : nat.

Implicit Types (st : store) (l m : loc) (v w x : val) (o : obj).

Lemma accumulated_extends o ls st r st2 :
  accumulated o ls st = (Ok r, st2) -> extends st st2.
Proof.
  destruct o; cbn; intros E; try (injection E as <- <-; apply extends_refl).
  eapply reduce_add_frame, E.
Qed.

(** The payload left by [flatten] is no instance in the store left by it. *)
Lemma flat_payload_not_instance m o c v ls w r st st2 :
  heap st !! m = Some o -> class_of o = Some c ->
  nest (heap st) c v ls w ->
  accumulated o ls st = (Ok r, st2) ->
  not_instance (heap (upd m (flat o w r) st2)) c w.
Proof.
  intros E C Hnest Hacc.
  destruct (accumulated_extends _ _ _ _ _ Hacc) as [_ Hfr].
  eapply not_instance_agree; [eapply nest_not_instance, Hnest |].
  intros l o' -> El. rewrite upd_lookup_ne; [now apply Hfr |].
  intros <-.
  assert (S : issubclass c c = true) by (now destruct c as [| []]).
  eapply (nest_payload_ne _ c m o c); [exact E | exact C | exact S
                                      | exact Hnest | reflexivity].
Qed.

(** X16: [flatten] twice is [flatten] once: on an instance of finite nesting the
    second call changes nothing. *)
Theorem flatten_idempotent m o c v ls w r st st2 :
  heap st !! m = Some o -> class_of o = Some c ->
  field o "_value" = Some v ->
  nest (heap st) c v ls w ->
  length ls < fuel ->
  accumulated o ls st = (Ok r, st2) ->
  (flatten fuel m;; flatten fuel m) st = flatten fuel m st.
Proof.
  intros E C F Hnest Hlen Hacc.
  pose proof (flatten_spec fuel m o c v ls w r st st2 E C F Hnest Hlen Hacc) as H1.
  rewrite H1. mok by exact H1.
  set (st' := upd m (flat o w r) st2).
  assert (Hni : not_instance (heap st') c w)
    by (eapply flat_payload_not_instance; eassumption).
  assert (E' : heap st' !! m = Some (flat o w r)) by apply upd_lookup.
  destruct o as [| v0 | k v0 s |]; try discriminate;
    cbn in C, F; injection C as <-; injection F as ->; cbn [flat] in *.
  - rewrite (flatten_spec fuel m (OMaybe w) Maybe w [] w VNone st' st');
      [cbn [flat]; now rewrite (upd_id _ _ _ E') | exact E' | reflexivity
      | reflexivity | now constructor | cbn; lia | reflexivity].
  - rewrite (flatten_spec fuel m (OContext k w r) (Context k) w [] w r st' st');
      [cbn [flat]; now rewrite (upd_id _ _ _ E') | exact E' | reflexivity
      | reflexivity | now constructor | cbn; lia | reflexivity].
Qed.

(** X17: After [flatten], [is_nothing] holds exactly when the innermost payload
    is the sentinel: a present [Maybe] around an absent one becomes
    absent. *)
Theorem flatten_is_nothing_iff m v ls w st :
  heap st !! m = Some (OMaybe v) ->
  nest (heap st) Maybe v ls w ->
  length ls < fuel ->
  (r ← flatten fuel m; Maybe_is_nothing m) st
  = (Ok (is_sentinel w), upd m (OMaybe w) st).
Proof.
  intros E Hnest Hlen.
  mok by (eapply (flatten_spec fuel m (OMaybe v) Maybe v ls w VNone st st);
          [exact E | reflexivity | reflexivity | exact Hnest | exact Hlen
          | reflexivity]).
  cbn [flat]. eapply Maybe_is_nothing_eq, upd_lookup.
Qed.

(** X18: [Maybe.unit] on an absent [Maybe] answers a present one: the payload
    it copies is the sentinel, and the copy of the sentinel is another
    object, which [is_nothing] does not recognise. *)
Theorem unit_of_Nothing_is_present l st :
  heap st !! l = Some (OMaybe VSentinel) ->
  0 < fuel ->
  exists lo lm st',
    Maybe_unit fuel (VRef l) st = (Ok (VRef lm), st')
    /\ heap st' !! lm = Some (OMaybe (VRef lo))
    /\ heap st' !! lo = Some OObject
    /\ Maybe_is_nothing lm st' = (Ok false, st')
    /\ Maybe_is_nothing l st' = (Ok true, st').
Proof.
  intros E Hf.
  set (lo := fresh (dom (heap st))). set (st1 := upd lo OObject st).
  set (lm := fresh (dom (heap st1))).
  set (st2 := upd lm (OMaybe (VRef lo)) st1).
  assert (Eo : heap st1 !! lo = Some OObject) by apply upd_lookup.
  assert (Eo2 : heap st2 !! lo = Some OObject).
  { unfold st2. rewrite upd_lookup_ne; [exact Eo |]. eapply fresh_ne, Eo. }
  assert (Em : heap st2 !! lm = Some (OMaybe (VRef lo))) by apply upd_lookup.
  assert (El1 : heap st1 !! l = Some (OMaybe VSentinel)).
  { unfold st1. rewrite upd_lookup_ne; [exact E |]. eapply fresh_ne, E. }
  assert (El2 : heap st2 !! l = Some (OMaybe VSentinel)).
  { unfold st2. rewrite upd_lookup_ne; [exact El1 |]. eapply fresh_ne, El1. }
  exists lo, lm, st2. split; [| split; [exact Em | split; [exact Eo2 | split]]].
  - unfold Maybe_unit.
    mok by (eapply (instance_of_eq l (OMaybe VSentinel) Maybe Maybe);
            [exact E | reflexivity | reflexivity]).
    mok by (eapply get_field_eq; [exact E | reflexivity]).
    mok by apply new_eq. mok by apply new_eq.
    change (flatten fuel lm st2 = (Ok (VRef lm), st2)).
    rewrite (flatten_spec fuel lm (OMaybe (VRef lo)) Maybe (VRef lo) []
               (VRef lo) VNone st2 st2);
      [cbn [flat]; now rewrite (upd_id _ _ _ Em) | exact Em | reflexivity
      | reflexivity | | cbn; lia | reflexivity].
    constructor. exists OObject. now split.
  - now rewrite (Maybe_is_nothing_eq _ _ _ Em).
  - now rewrite (Maybe_is_nothing_eq _ _ _ El2).
Qed.

(** X19: [fmap] on a present [Maybe] with a client function: the function is
    called once, on the payload; its result becomes the payload of a new
    [Maybe], the only object [fmap] itself writes; what it raises, [fmap]
    raises. *)
Theorem Maybe_fmap_calls_once l x n d st :
  heap st !! l = Some (OMaybe x) ->
  is_sentinel x = false ->
  fmap client fuel (S d) l (VFun n) st
  = match client n x (heap st) with
    | (Ok y, h1) =>
        (Ok (VRef (fresh (dom h1))),
         Store (<[fresh (dom h1) := OMaybe y]> h1) (calls st ++ [(n, x)]))
    | (Raise e, h1) => (Raise e, Store h1 (calls st ++ [(n, x)]))
    | (OutOfFuel, h1) => (OutOfFuel, Store h1 (calls st ++ [(n, x)]))
    end.
Proof.
  intros E S. unfold fmap. rewrite (Maybe_fmap_present _ _ _ _ _ _ E S).
  unfold mbind, M_bind. cbn [call]. unfold call_client.
  destruct (client n x (heap st)) as [[y | e |] h1]; reflexivity.
Qed.

(** *** [DictState] *)

(** X20: [zero + s] and [s + zero] are new plain dicts with the contents of
    [s]; [s] itself is left as it was. *)
Theorem DictState_zero_laws s d st :
  heap st !! s = Some (ODict true d) ->
  exists z r st1 r' st2,
    (z ← DictState_zero; add z (VRef s)) st = (Ok (VRef r), st1)
    /\ heap st1 !! r = Some (ODict false d)
    /\ heap st1 !! s = Some (ODict true d)
    /\ heap st1 !! z = Some (ODict true ∅)
    /\ (z ← DictState_zero; add (VRef s) z) st = (Ok (VRef r'), st2)
    /\ heap st2 !! r' = Some (ODict false d)
    /\ heap st2 !! s = Some (ODict true d).
Proof.
  intros E.
  set (z := fresh (dom (heap st))). set (st0 := upd z (ODict true ∅) st).
  set (r := fresh (dom (heap st0))).
  assert (Ez : heap st0 !! z = Some (ODict true ∅)) by apply upd_lookup.
  assert (Es : heap st0 !! s = Some (ODict true d)).
  { unfold st0. rewrite upd_lookup_ne; [exact E |]. eapply fresh_ne, E. }
  exists z, r, (upd r (ODict false (d ∪ ∅)) st0), r,
    (upd r (ODict false (∅ ∪ d)) st0).
  split; [| split; [| split; [| split; [| split; [| split]]]]].
  - unfold DictState_zero. mok by apply new_eq. unfold add.
    mok by (apply deref_eq, Ez). mok by (apply deref_eq, Es). apply new_eq.
  - rewrite upd_lookup. now rewrite (right_id_L ∅ (∪) d).
  - rewrite upd_lookup_ne; [exact Es |]. eapply fresh_ne, Es.
  - rewrite upd_lookup_ne; [exact Ez |]. eapply fresh_ne, Ez.
  - unfold DictState_zero. mok by apply new_eq. unfold add.
    mok by (apply deref_eq, Es). mok by (apply deref_eq, Ez). apply new_eq.
  - rewrite upd_lookup. now rewrite (left_id_L ∅ (∪) d).
  - rewrite upd_lookup_ne; [exact Es |]. eapply fresh_ne, Es.
Qed.

(** X21: [+] on [DictState]s is not associative as an operation: [a + (b + c)]
    is the union in which later keys win, while [(a + b) + c] raises
    [TypeError], the sum [a + b] being a plain dict. *)
Theorem DictState_add_not_associative a b c da db dc st :
  heap st !! a = Some (ODict true da) ->
  heap st !! b = Some (ODict true db) ->
  heap st !! c = Some (ODict true dc) ->
  (exists r st',
      (y ← add (VRef b) (VRef c); add (VRef a) y) st = (Ok (VRef r), st')
      /\ heap st' !! r = Some (ODict false ((dc ∪ db) ∪ da)))
  /\ ((x ← add (VRef a) (VRef b); add x (VRef c)) st).1
     = Raise (TypeError "unsupported operand type(s) for +").
Proof.
  intros Ea Eb Ec.
  set (y := fresh (dom (heap st))). set (st1 := upd y (ODict false (dc ∪ db)) st).
  set (x := fresh (dom (heap st))). set (st1' := upd x (ODict false (db ∪ da)) st).
  split.
  - exists (fresh (dom (heap st1))),
      (upd (fresh (dom (heap st1))) (ODict false ((dc ∪ db) ∪ da)) st1).
    split; [| apply upd_lookup].
    mok by (unfold add; mok by (apply deref_eq, Eb); mok by (apply deref_eq, Ec);
            apply new_eq).
    fold y st1. unfold add.
    mok by (apply deref_eq; unfold st1; rewrite upd_lookup_ne;
            [exact Ea | eapply fresh_ne, Ea]).
    mok by (apply deref_eq, upd_lookup). apply new_eq.
  - mok by (unfold add; mok by (apply deref_eq, Ea); mok by (apply deref_eq, Eb);
            apply new_eq).
    fold x st1'.
    now rewrite (add_plain_dict_raises x (db ∪ da) c st1' (upd_lookup _ _ _)).
Qed.

(** *** [compose_unary] *)

Lemma reduce_app {A B} (f : B -> A -> M store B) xs : forall ys init st,
  reduce f (xs ++ ys) init st = (r ← reduce f xs init; reduce f ys r) st.
Proof.
  induction xs as [| a xs IH]; intros ys init st; [reflexivity |].
  cbn [app reduce]. unfold mbind, M_bind in *.
  destruct (f init a st) as [[r | e |] st1]; try reflexivity. apply IH.
Qed.

(** X22: [compose_unary] composes from right to left, and composing two lists
    of functions is composing their compositions: the functions of the
    second list are applied first. *)
Theorem compose_unary_app fs gs x d st :
  call client fuel (S d) (compose_unary (fs ++ gs)) x st
  = (y ← call client fuel (S d) (compose_unary gs) x;
     call client fuel (S d) (compose_unary fs) y) st.
Proof.
  unfold compose_unary. cbn [call]. rewrite rev_app_distr. apply reduce_app.
Qed.

End Facts.

(** *** The theorems on the example inputs *)

Lemma flatten_idempotent_witness :
  heap st_maybe !! 1%nat = Some (OMaybe (VRef 0))
  /\ nest (heap st_maybe) Maybe (VRef 0) [0%nat] (VInt 5)
  /\ length [0%nat] < 2
  /\ (flatten 2 1;; flatten 2 1) st_maybe = flatten 2 1 st_maybe.
Proof.
  assert (E : heap st_maybe !! 1%nat = Some (OMaybe (VRef 0)))
    by (vm_compute; reflexivity).
  assert (L : length [0%nat] < 2) by (cbn; lia).
  split; [exact E |]. split; [exact nest_st_maybe |]. split; [exact L |].
  exact (flatten_idempotent 2 1 (OMaybe (VRef 0)) Maybe (VRef 0) [0%nat] (VInt 5)
           VNone st_maybe st_maybe E eq_refl eq_refl nest_st_maybe L eq_refl).
Defined.

(** [Just(Nothing())]: the instance at 1 wraps the absent one at 0. *)
Lemma flatten_is_nothing_iff_witness :
  let st := Store {[ 0%nat := OMaybe VSentinel; 1%nat := OMaybe (VRef 0) ]} [] in
  heap st !! 1%nat = Some (OMaybe (VRef 0))
  /\ nest (heap st) Maybe (VRef 0) [0%nat] VSentinel
  /\ length [0%nat] < 2
  /\ (r ← flatten 2 1; Maybe_is_nothing 1) st
     = (Ok true, upd 1 (OMaybe VSentinel) st).
Proof.
  intros st.
  assert (E : heap st !! 1%nat = Some (OMaybe (VRef 0))) by (vm_compute; reflexivity).
  assert (N : nest (heap st) Maybe (VRef 0) [0%nat] VSentinel).
  { apply (nest_cons _ _ 0%nat (OMaybe VSentinel) Maybe VSentinel [] VSentinel);
      [vm_compute; reflexivity | reflexivity | reflexivity | reflexivity |].
    constructor. exact I. }
  assert (L : length [0%nat] < 2) by (cbn; lia).
  split; [exact E |]. split; [exact N |]. split; [exact L |].
  exact (flatten_is_nothing_iff 2 1 (VRef 0) [0%nat] VSentinel st E N L).
Defined.

Lemma unit_of_Nothing_is_present_witness :
  heap st_nothing !! 0%nat = Some (OMaybe VSentinel)
  /\ 0 < 1
  /\ exists lo lm st',
      Maybe_unit 1 (VRef 0) st_nothing = (Ok (VRef lm), st')
      /\ heap st' !! lm = Some (OMaybe (VRef lo))
      /\ heap st' !! lo = Some OObject
      /\ Maybe_is_nothing lm st' = (Ok false, st')
      /\ Maybe_is_nothing 0 st' = (Ok true, st').
Proof.
  assert (E : heap st_nothing !! 0%nat = Some (OMaybe VSentinel))
    by (vm_compute; reflexivity).
  assert (L : 0 < 1) by lia.
  split; [exact E |]. split; [exact L |].
  exact (unit_of_Nothing_is_present 1 0 st_nothing E L).
Defined.

Lemma Maybe_fmap_calls_once_witness :
  heap st_maybe !! 0%nat = Some (OMaybe (VInt 5))
  /\ is_sentinel (VInt 5) = false
  /\ fmap client_succ 1 1 0 (VFun 3) st_maybe
     = (Ok (VRef 2),
        Store (<[ 2%nat := OMaybe (VInt 6) ]> (heap st_maybe)) [(3, VInt 5)]).
Proof.
  assert (E : heap st_maybe !! 0%nat = Some (OMaybe (VInt 5)))
    by (vm_compute; reflexivity).
  split; [exact E |]. split; [reflexivity |].
  exact (Maybe_fmap_calls_once client_succ 1 0 (VInt 5) 3 0 st_maybe E eq_refl).
Defined.

Lemma DictState_zero_laws_witness :
  heap st_ctx !! 0%nat = Some (ODict true d_outer)
  /\ exists z r st1 r' st2,
      (z ← DictState_zero; add z (VRef 0)) st_ctx = (Ok (VRef r), st1)
      /\ heap st1 !! r = Some (ODict false d_outer)
      /\ heap st1 !! 0%nat = Some (ODict true d_outer)
      /\ heap st1 !! z = Some (ODict true ∅)
      /\ (z ← DictState_zero; add (VRef 0) z) st_ctx = (Ok (VRef r'), st2)
      /\ heap st2 !! r' = Some (ODict false d_outer)
      /\ heap st2 !! 0%nat = Some (ODict true d_outer).
Proof.
  assert (E : heap st_ctx !! 0%nat = Some (ODict true d_outer))
    by (vm_compute; reflexivity).
  split; [exact E |]. exact (DictState_zero_laws 0 d_outer st_ctx E).
Defined.

Lemma DictState_add_not_associative_witness :
  heap st_ctx3 !! 0%nat = Some (ODict true d_outer)
  /\ heap st_ctx3 !! 1%nat = Some (ODict true d_inner)
  /\ heap st_ctx3 !! 4%nat = Some (ODict true {[ "c" := VInt 3 ]})
  /\ (exists r st',
        (y ← add (VRef 1) (VRef 4); add (VRef 0) y) st_ctx3 = (Ok (VRef r), st')
        /\ heap st' !! r
           = Some (ODict false (({[ "c" := VInt 3 ]} ∪ d_inner) ∪ d_outer)))
  /\ ((x ← add (VRef 0) (VRef 1); add x (VRef 4)) st_ctx3).1
     = Raise (TypeError "unsupported operand type(s) for +").
Proof.
  assert (Ea : heap st_ctx3 !! 0%nat = Some (ODict true d_outer))
    by (vm_compute; reflexivity).
  assert (Eb : heap st_ctx3 !! 1%nat = Some (ODict true d_inner))
    by (vm_compute; reflexivity).
  assert (Ec : heap st_ctx3 !! 4%nat = Some (ODict true {[ "c" := VInt 3 ]}))
    by (vm_compute; reflexivity).
  split; [exact Ea |]. split; [exact Eb |]. split; [exact Ec |].
  exact (DictState_add_not_associative 0 1 4 d_outer d_inner {[ "c" := VInt 3 ]}
           st_ctx3 Ea Eb Ec).
Defined.

End MonadMore.
